(** * Real-time PII defense: the [PiiScanner] of [detector_devanarayanan.py]

    A shallow embedding of the scanner class (the masking strategies and
    [scan]) and the properties of its specification.

    Modelling conventions.
    - A Python [str] is a [string]: one [ascii] per character.
    - A record is a Python [dict] living in a store of objects; [scan]
      receives a reference, copies the dict it points to and writes only
      through the reference of the copy.
    - Scores are Python floats: binary64 numbers, each carried by its exact
      rational value, with an operation being the exact result rounded to
      the nearest binary64 number, ties to even.
    - A compiled pattern is a regular expression over characters and
      [fullmatch] is membership of the whole string in its language. *)

From Stdlib Require Import Ascii String QArith Qround Qminmax Qpower Lqa DecimalString.
From stdpp Require Import gmap strings list fin_maps.

Local Open Scope string_scope.

(** ** Strings *)

Module Str.

(** [s[:n]] *)
Fixpoint take (n : nat) (s : string) : string :=
  match n, s with
  | S n', String c s' => String c (take n' s')
  | _, _ => EmptyString
  end.

(** [s[n:]] *)
Fixpoint drop (n : nat) (s : string) : string :=
  match n, s with
  | S n', String _ s' => drop n' s'
  | _, _ => s
  end.

(** [c * n] for a one-character string [c] *)
Fixpoint rep (c : ascii) (n : nat) : string :=
  match n with
  | O => EmptyString
  | S n' => String c (rep c n')
  end.

Fixpoint mem (c : ascii) (s : string) : bool :=
  match s with
  | EmptyString => false
  | String c' s' => if Ascii.eqb c' c then true else mem c s'
  end.

(** [s.split(sep, 1)] for a one-character separator: the list holds one
    string when [sep] does not occur and two when it does. *)
Fixpoint split1 (sep : ascii) (s : string) : list string :=
  match s with
  | EmptyString => [EmptyString]
  | String c s' =>
      if Ascii.eqb c sep then [EmptyString; s']
      else match split1 sep s' with
           | [] => []
           | p :: rest => String c p :: rest
           end
  end.

(** [sep.join(parts)] *)
Definition join (sep : string) (parts : list string) : string :=
  String.concat sep parts.

End Str.

(** ** Values of a record *)

(** The values [json.loads] produces.  The scanner looks at a value only to
    ask whether it is a [str] and to take its [str()] form, so floats, lists
    and dicts are carried by that rendering. *)
Inductive value : Type :=
| VStr (s : string)
| VInt (n : Z)
| VBool (b : bool)
| VNone
| VOther (shown : string).

Definition isinstance_str (v : value) : bool :=
  match v with VStr _ => true | _ => false end.

(** [str(v)] *)
Definition py_str (v : value) : string :=
  match v with
  | VStr s => s
  | VInt n => NilZero.string_of_int (Z.to_int n)
  | VBool true => "True"
  | VBool false => "False"
  | VNone => "None"
  | VOther shown => shown
  end.

(** ** Exceptions *)

Inductive exn : Type :=
| KeyError (key : string)
| ValueError
| AttributeError
| TypeError.

Inductive outcome (A : Type) : Type :=
| Ret (a : A)
| Raise (e : exn).
Arguments Ret {A} a.
Arguments Raise {A} e.

#[export] Instance outcome_ret : MRet outcome := @Ret.
#[export] Instance outcome_bind : MBind outcome := fun A B f m =>
  match m with
  | Ret a => f a
  | Raise e => Raise e
  end.

(** [try: body except (ValueError, AttributeError): handler] *)
Definition try_except {A} (body : outcome A) (handler : outcome A) : outcome A :=
  match body with
  | Raise ValueError | Raise AttributeError => handler
  | other => other
  end.

(** [v.split(sep, 1)]: only a [str] has the attribute *)
Definition py_split1 (sep : ascii) (v : value) : outcome (list string) :=
  match v with
  | VStr s => Ret (Str.split1 sep s)
  | _ => Raise AttributeError
  end.

(** [a, b = parts] *)
Definition unpack2 (parts : list string) : outcome (string * string) :=
  match parts with
  | [a; b] => Ret (a, b)
  | _ => Raise ValueError
  end.

(** ** The redaction strategies *)

Definition _mask_str (text : value) : string :=
  match text with
  | VStr s =>
      if (String.length s <? 5)%nat then "****"
      else Str.take 2 s +:+ Str.rep "X" (String.length s - 4)
                        +:+ Str.drop (String.length s - 2) s
  | _ => "****"
  end.

Definition _mask_mail (mail : value) : outcome string :=
  try_except
    (parts ← py_split1 "@" mail;
     '(user, domain) ← unpack2 parts;
     mret (_mask_str (VStr user) +:+ "@" +:+ domain))
    (mret (_mask_str (VStr (py_str mail)))).

Definition _mask_num (num : value) : outcome string :=
  mret (_mask_str (VStr (py_str num))).

Definition mask_fn : Type := value → outcome string.

Definition _get_redactors : list (string * mask_fn) :=
  [ ("mask_string", fun v => mret (_mask_str v));
    ("mask_email", _mask_mail);
    ("mask_numeric", _mask_num) ].

(** [name in self.redactors] and [self.redactors[name]] *)
Fixpoint assoc {A} (name : string) (table : list (string * A)) : option A :=
  match table with
  | [] => None
  | (k, a) :: rest => if String.eqb k name then Some a else assoc name rest
  end.

(** ** Compiled patterns *)

Inductive regex : Type :=
| Void
| Eps
| Chr (c : ascii)
| Rng (lo hi : ascii)
| Dot
| Cat (r1 r2 : regex)
| Alt (r1 r2 : regex)
| Star (r : regex).

Module Re.

Fixpoint nullable (r : regex) : bool :=
  match r with
  | Void | Chr _ | Rng _ _ | Dot => false
  | Eps | Star _ => true
  | Cat r1 r2 => nullable r1 && nullable r2
  | Alt r1 r2 => nullable r1 || nullable r2
  end.

Definition in_range (lo hi c : ascii) : bool :=
  (nat_of_ascii lo <=? nat_of_ascii c)%nat && (nat_of_ascii c <=? nat_of_ascii hi)%nat.

(** Brzozowski derivative; [Dot] is any character but the newline. *)
Fixpoint deriv (c : ascii) (r : regex) : regex :=
  match r with
  | Void | Eps => Void
  | Chr c' => if Ascii.eqb c' c then Eps else Void
  | Rng lo hi => if in_range lo hi c then Eps else Void
  | Dot => if Ascii.eqb c "010" then Void else Eps
  | Cat r1 r2 =>
      if nullable r1 then Alt (Cat (deriv c r1) r2) (deriv c r2)
      else Cat (deriv c r1) r2
  | Alt r1 r2 => Alt (deriv c r1) (deriv c r2)
  | Star r1 => Cat (deriv c r1) (Star r1)
  end.

(** the whole of [s] is in the language of [r] *)
Fixpoint fullmatch (r : regex) (s : string) : bool :=
  match s with
  | EmptyString => nullable r
  | String c s' => fullmatch (deriv c r) s'
  end.


Definition plus (r : regex) : regex := Cat r (Star r).

End Re.

(** [pattern.fullmatch(v)]: a [TypeError] for anything but a [str] *)
Definition py_fullmatch (r : regex) (v : value) : outcome bool :=
  match v with
  | VStr s => Ret (Re.fullmatch r s)
  | _ => Raise TypeError
  end.

(** ** Binary64 floating point *)

(** to the nearest integer, ties to the even one *)
Definition round_half_even (q : Q) : Z :=
  let n := Qfloor q in
  match (q - inject_Z n ?= 1 # 2)%Q with
  | Lt => n
  | Gt => (n + 1)%Z
  | Eq => if Z.even n then n else (n + 1)%Z
  end.

(** A Python float: a finite binary64 number, carried by its exact value,
    an infinity or a NaN.  The two zeros are one value: they compare equal
    and the scanner never looks at the sign of a zero. *)
Inductive f64 : Type :=
| Finite (q : Q)
| PosInf
| NegInf
| NaN.

Module F64.

Definition two_pow (e : Z) : Q := (2 ^ e)%Q.

(** [floor (log2 a)] for [0 < a] *)
Definition ilog2 (a : Q) : Z :=
  let c := (Z.log2 (Qnum a) - Z.log2 (Zpos (Qden a)))%Z in
  if Qle_bool (two_pow c) a then c else (c - 1)%Z.

(** exponent of the last place of the binary64 numbers around [a]:
    53 bits of precision, smallest exponent -1074 *)
Definition ulp_exp (a : Q) : Z := Z.max (ilog2 a - 52) (-1074).

(** for [0 < a], the closest multiple of the last place, ties to even *)
Definition nearest (a : Q) : Q :=
  (inject_Z (round_half_even (a / two_pow (ulp_exp a))) * two_pow (ulp_exp a))%Q.

(** round to nearest, ties to even; overflow from 2^1024 on *)
Definition rnd (q : Q) : f64 :=
  match (q ?= 0)%Q with
  | Eq => Finite 0
  | Gt => if Qle_bool (two_pow 1024) (nearest q) then PosInf
          else Finite (Qred (nearest q))
  | Lt => if Qle_bool (two_pow 1024) (nearest (- q)) then NegInf
          else Finite (Qred (- nearest (- q)))
  end.

Definition zero : f64 := Finite 0.
Definition half : f64 := Finite (1 # 2).
Definition one : f64 := Finite 1.

(** [x + y] *)
Definition add (x y : f64) : f64 :=
  match x, y with
  | NaN, _ | _, NaN => NaN
  | PosInf, NegInf | NegInf, PosInf => NaN
  | PosInf, _ | _, PosInf => PosInf
  | NegInf, _ | _, NegInf => NegInf
  | Finite a, Finite b => rnd (a + b)
  end.

Definition inf_times (positive : bool) (q : Q) : f64 :=
  match (q ?= 0)%Q with
  | Eq => NaN
  | Gt => if positive then PosInf else NegInf
  | Lt => if positive then NegInf else PosInf
  end.

(** [x * y] *)
Definition mul (x y : f64) : f64 :=
  match x, y with
  | NaN, _ | _, NaN => NaN
  | Finite a, Finite b => rnd (a * b)
  | PosInf, Finite b => inf_times true b
  | NegInf, Finite b => inf_times false b
  | Finite a, PosInf => inf_times true a
  | Finite a, NegInf => inf_times false a
  | PosInf, PosInf | NegInf, NegInf => PosInf
  | PosInf, NegInf | NegInf, PosInf => NegInf
  end.

(** [x < y] *)
Definition ltb (x y : f64) : bool :=
  match x, y with
  | NaN, _ | _, NaN => false
  | Finite a, Finite b => negb (Qle_bool b a)
  | _, NegInf => false
  | NegInf, _ => true
  | PosInf, _ => false
  | Finite _, PosInf => true
  end.

(** [x <= y] *)
Definition leb (x y : f64) : bool :=
  match x, y with
  | NaN, _ | _, NaN => false
  | Finite a, Finite b => Qle_bool a b
  | NegInf, _ => true
  | _, PosInf => true
  | _, NegInf => false
  | PosInf, _ => false
  end.

(** [float(k)] for a length [k] *)
Definition of_nat (k : nat) : f64 := rnd (inject_Z (Z.of_nat k)).

(** the binary64 number a decimal literal denotes *)
Definition of_Q (q : Q) : f64 := rnd q.

(** the order as a proposition *)
Definition le (x y : f64) : Prop := leb x y = true.

(** it is a number and not below zero *)
Definition nonneg (x : f64) : Prop := leb zero x = true.

(** not below zero, or not a number *)
Definition nonneg_or_nan (x : f64) : Prop := nonneg x ∨ x = NaN.

(** [s'] is at least [s], both numbers from zero upwards, or both are not
    numbers *)
Definition ordered (s s' : f64) : Prop :=
  (nonneg s ∧ le s s') ∨ (s = NaN ∧ s' = NaN).

(** a finite number and not below zero *)
Definition finite_nonneg (x : f64) : Prop :=
  match x with
  | Finite q => (0 <= q)%Q
  | _ => False
  end.

End F64.

(** [min(1.0, score)]: Python keeps the first argument unless the second
    is smaller. *)
Definition py_min1 (score : f64) : f64 :=
  if F64.ltb score F64.one then score else F64.one.

(** [round(x, 2)]: the decimal with two places nearest to the exact value
    of [x], ties to even, then the binary64 number nearest to it *)
Definition py_round2 (x : f64) : f64 :=
  match x with
  | Finite q => F64.rnd (inject_Z (round_half_even (q * 100)) / 100)
  | other => other
  end.

(** ** The rule catalog ([self.conf]) *)

Module Standalone.
Record rule : Type := Rule {
  compiled : regex;
  base_score : f64;
  redactor : string
}.
End Standalone.

Module Combinatorial.
Record rule : Type := Rule {
  keys : list string;
  base_score : f64
}.
End Combinatorial.

(** The two rule tables are dicts iterated in insertion order; the
    placeholders are only looked up. *)
Record Catalog : Type := {
  standalone_pii_patterns : list (string * Standalone.rule);
  combinatorial_pii_sets : list (string * Combinatorial.rule);
  redaction_placeholders : gmap string string
}.

(** ** The store of objects and the monad of [scan] *)

Definition loc : Type := positive.

Record world : Type := World {
  w_conf : Catalog;
  w_heap : gmap loc (gmap string value)
}.

Definition M (A : Type) : Type := world → outcome A * world.

#[export] Instance M_ret : MRet M := fun A a w => (Ret a, w).
#[export] Instance M_bind : MBind M := fun A B f m w =>
  match m w with
  | (Ret a, w') => f a w'
  | (Raise e, w') => (Raise e, w')
  end.

Definition lift {A} (o : outcome A) : M A := fun w => (o, w).

Definition get_conf : M Catalog := fun w => (Ret (w_conf w), w).

(** A reference that holds no dict stands for an object that is not a
    dict: it has no [copy] and supports neither [in] nor indexing. *)

(** [rec.copy()] *)
Definition dict_copy (l : loc) : M loc := fun w =>
  match w_heap w !! l with
  | Some d =>
      let l' := fresh (dom (w_heap w)) in
      (Ret l', World (w_conf w) (<[l' := d]> (w_heap w)))
  | None => (Raise AttributeError, w)
  end.

(** [k in rec] *)
Definition dict_contains (l : loc) (k : string) : M bool := fun w =>
  match w_heap w !! l with
  | Some d => (Ret (bool_decide (is_Some (d !! k))), w)
  | None => (Raise TypeError, w)
  end.

(** [rec[k]] *)
Definition dict_getitem (l : loc) (k : string) : M value := fun w =>
  match w_heap w !! l with
  | Some d =>
      match d !! k with
      | Some v => (Ret v, w)
      | None => (Raise (KeyError k), w)
      end
  | None => (Raise TypeError, w)
  end.

(** [rec[k] = v] *)
Definition dict_setitem (l : loc) (k : string) (v : value) : M unit := fun w =>
  match w_heap w !! l with
  | Some d => (Ret tt, World (w_conf w) (<[l := <[k := v]> d]> (w_heap w)))
  | None => (Raise TypeError, w)
  end.

(** [self.redactors[name]] *)
Definition redactors_getitem (name : string) : outcome mask_fn :=
  match assoc name _get_redactors with
  | Some fn => Ret fn
  | None => Raise (KeyError name)
  end.

(** a [for] loop threading its local variables *)
Fixpoint for_each {A B} (body : B → A → M B) (b : B) (items : list A) : M B :=
  match items with
  | [] => mret b
  | x :: rest => b' ← body b x; for_each body b' rest
  end.

(** [[k for k in ks if k in rec]] *)
Fixpoint keys_in (rec : loc) (ks : list string) : M (list string) :=
  match ks with
  | [] => mret []
  | k :: rest =>
      present ← dict_contains rec k;
      found ← keys_in rec rest;
      mret (if present : bool then k :: found else found)
  end.

(** ** [scan] *)

Definition standalone_body (rec safe_rec : loc) (acc : f64 * list string)
    (item : string * Standalone.rule) : M (f64 * list string) :=
  let '(score, log) := acc in
  let '(pii_key, rule) := item in
  present ← dict_contains rec pii_key;
  textual ← (if present : bool
             then v ← dict_getitem rec pii_key; mret (isinstance_str v)
             else mret false);
  if textual : bool then
    v ← dict_getitem rec pii_key;
    matched ← lift (py_fullmatch (Standalone.compiled rule) v);
    if matched : bool then
      let score := F64.add score (Standalone.base_score rule) in
      let log := (log ++ ["found solo pii [" +:+ pii_key +:+ "]"])%list in
      fn ← lift (redactors_getitem (Standalone.redactor rule));
      v ← dict_getitem rec pii_key;
      masked ← lift (fn v);
      _ ← dict_setitem safe_rec pii_key (VStr masked);
      mret (score, log)
    else mret (score, log)
  else mret (score, log).

Definition combinatorial_body (rec : loc) (acc : f64 * list string * gset string)
    (item : string * Combinatorial.rule) : M (f64 * list string * gset string) :=
  let '(score, log, combo_keys) := acc in
  let '(_, rule) := item in
  keys_found ← keys_in rec (Combinatorial.keys rule);
  if (2 <=? length keys_found)%nat then
    let score :=
      F64.add score
        (F64.mul (Combinatorial.base_score rule) (F64.of_nat (length keys_found))) in
    let log :=
      (log ++ ["found combo pii [" +:+ Str.join "+" keys_found +:+ "]"])%list in
    mret (score, log, combo_keys ∪ list_to_set keys_found)
  else mret (score, log, combo_keys).

Definition redact_body (rec safe_rec : loc) (_ : unit) (key : string) : M unit :=
  conf ← get_conf;
  match redaction_placeholders conf !! key with
  | Some mask =>
      match assoc mask _get_redactors with
      | Some fn =>
          v ← dict_getitem rec key;
          masked ← lift (fn v);
          dict_setitem safe_rec key (VStr masked)
      | None =>
          if String.eqb mask "" then mret tt
          else dict_setitem safe_rec key (VStr mask)
      end
  | None => mret tt
  end.

Definition scan (rec : loc) : M (loc * bool * f64 * string) :=
  safe_rec ← dict_copy rec;
  conf ← get_conf;
  '(score, log) ← for_each (standalone_body rec safe_rec) (F64.zero, [])
                    (standalone_pii_patterns conf);
  conf ← get_conf;
  '(score, log, combo_keys) ← for_each (combinatorial_body rec) (score, log, ∅)
                                (combinatorial_pii_sets conf);
  _ ← for_each (redact_body rec safe_rec) tt (elements combo_keys);
  let confidence := py_min1 score in
  let is_pii := F64.ltb F64.half confidence in
  let reason := match log with [] => "No PII detected" | _ => Str.join ", " log end in
  mret (safe_rec, is_pii, py_round2 confidence, reason).

(** ** What a scan computes, as functions of the catalog and the record *)

Section Pure.

Variable d : gmap string value.

(** the rule of field [item.1] applies to the record *)
Definition solo_hit (item : string * Standalone.rule) : bool :=
  match d !! item.1 with
  | Some (VStr s) => Re.fullmatch (Standalone.compiled item.2) s
  | _ => false
  end.

Definition solo_entry (k : string) : string := "found solo pii [" +:+ k +:+ "]".

(** the string a named strategy returns *)
Definition masked (name : string) (v : value) : string :=
  match assoc name _get_redactors with
  | Some fn => match fn v with Ret s => s | Raise _ => "" end
  | None => ""
  end.

Definition solo_score (items : list (string * Standalone.rule)) (s0 : f64) : f64 :=
  fold_left (fun s item =>
               if solo_hit item then F64.add s (Standalone.base_score item.2) else s)
            items s0.

Definition solo_log (items : list (string * Standalone.rule)) (l0 : list string)
    : list string :=
  fold_left (fun l item => if solo_hit item then (l ++ [solo_entry item.1])%list else l)
            items l0.

Definition solo_redact (sd : gmap string value) (item : string * Standalone.rule)
    : gmap string value :=
  match d !! item.1 with
  | Some v =>
      if solo_hit item
      then <[item.1 := VStr (masked (Standalone.redactor item.2) v)]> sd
      else sd
  | None => sd
  end.

Definition keys_found (ks : list string) : list string :=
  List.filter (fun k => bool_decide (is_Some (d !! k))) ks.

Definition combo_hit (rule : Combinatorial.rule) : bool :=
  (2 <=? length (keys_found (Combinatorial.keys rule)))%nat.

Definition combo_contribution (rule : Combinatorial.rule) : f64 :=
  F64.mul (Combinatorial.base_score rule)
    (F64.of_nat (length (keys_found (Combinatorial.keys rule)))).

Definition combo_entry (rule : Combinatorial.rule) : string :=
  "found combo pii [" +:+ Str.join "+" (keys_found (Combinatorial.keys rule)) +:+ "]".

Definition combo_score (items : list (string * Combinatorial.rule)) (s0 : f64) : f64 :=
  fold_left (fun s item =>
               if combo_hit item.2 then F64.add s (combo_contribution item.2) else s)
            items s0.

Definition combo_log (items : list (string * Combinatorial.rule)) (l0 : list string)
    : list string :=
  fold_left (fun l item => if combo_hit item.2 then (l ++ [combo_entry item.2])%list else l)
            items l0.

Definition combo_pending (items : list (string * Combinatorial.rule)) (p0 : gset string)
    : gset string :=
  fold_left (fun p item =>
               if combo_hit item.2
               then p ∪ list_to_set (keys_found (Combinatorial.keys item.2))
               else p)
            items p0.

Definition placeholder_redact (conf : Catalog) (sd : gmap string value) (key : string)
    : gmap string value :=
  match redaction_placeholders conf !! key with
  | Some mask =>
      match assoc mask _get_redactors with
      | Some _ =>
          match d !! key with
          | Some v => <[key := VStr (masked mask v)]> sd
          | None => sd
          end
      | None => if String.eqb mask "" then sd else <[key := VStr mask]> sd
      end
  | None => sd
  end.

Definition after_standalone (conf : Catalog) : gmap string value :=
  fold_left solo_redact (standalone_pii_patterns conf) d.

Definition pending (conf : Catalog) : gset string :=
  combo_pending (combinatorial_pii_sets conf) ∅.

Definition sanitized (conf : Catalog) : gmap string value :=
  fold_left (placeholder_redact conf) (elements (pending conf)) (after_standalone conf).

Definition running_total (conf : Catalog) : f64 :=
  combo_score (combinatorial_pii_sets conf)
    (solo_score (standalone_pii_patterns conf) F64.zero).

Definition rationale (conf : Catalog) : string :=
  match combo_log (combinatorial_pii_sets conf)
          (solo_log (standalone_pii_patterns conf) []) with
  | [] => "No PII detected"
  | log => Str.join ", " log
  end.

End Pure.

(** Every redactor named by a standalone rule is a known strategy. *)
Definition catalog_valid (conf : Catalog) : Prop :=
  ∀ item, item ∈ standalone_pii_patterns conf →
          is_Some (assoc (Standalone.redactor item.2) _get_redactors).

(** every base score is a finite number and not below zero *)
Definition scores_nonneg (conf : Catalog) : Prop :=
  (∀ item, item ∈ standalone_pii_patterns conf →
           F64.finite_nonneg (Standalone.base_score item.2)) ∧
  (∀ item, item ∈ combinatorial_pii_sets conf →
           F64.finite_nonneg (Combinatorial.base_score item.2)).

(** [w'] differs from [w] at most in the dict at [safe], which stays a dict *)
Definition frame (safe : loc) (w w' : world) : Prop :=
  w_conf w' = w_conf w
  ∧ (∀ l, l ≠ safe → w_heap w' !! l = w_heap w !! l)
  ∧ (is_Some (w_heap w !! safe) → is_Some (w_heap w' !! safe)).

Definition writes_only {A} (safe : loc) (m : M A) : Prop :=
  ∀ w, frame safe w (m w).2.

(** ** A catalog and records to run the scanner on *)

Module Sample.

Definition digit : regex := Rng "0" "9".

Fixpoint cats (rs : list regex) : regex :=
  match rs with
  | [] => Eps
  | r :: rest => Cat r (cats rest)
  end.

(** [\d{3}-\d{2}-\d{4}] *)
Definition ssn_re : regex :=
  cats [digit; digit; digit; Chr "-"; digit; digit; Chr "-";
        digit; digit; digit; digit].

(** [[a-z.]+@[a-z.]+] *)
Definition word : regex := Re.plus (Alt (Rng "a" "z") (Chr ".")).
Definition email_re : regex := Cat word (Cat (Chr "@") word).

Definition ssn_rule : Standalone.rule :=
  Standalone.Rule ssn_re (Finite (7 # 8)) "mask_numeric".

Definition email_rule : Standalone.rule :=
  Standalone.Rule email_re (Finite (129 # 256)) "mask_email".

Definition name_rule : Combinatorial.rule :=
  Combinatorial.Rule ["first_name"; "last_name"; "city"] (Finite (1 # 8)).

Definition catalog : Catalog := {|
  standalone_pii_patterns := [ ("ssn", ssn_rule); ("email", email_rule) ];
  combinatorial_pii_sets := [ ("name", name_rule) ];
  redaction_placeholders :=
    {[ "first_name" := "mask_string"; "last_name" := "[REDACTED]"; "city" := "" ]}
|}.

Definition person : gmap string value :=
  {[ "ssn" := VStr "123-45-6789";
     "email" := VStr "write to jane.doe@example.com";
     "first_name" := VStr "Alexander";
     "last_name" := VStr "Smith";
     "city" := VStr "Paris";
     "age" := VInt 41 ]}.

Definition contact : gmap string value :=
  {[ "email" := VStr "jane.doe@example.com" ]}.

Definition rec : loc := 1%positive.
Definition copy : loc := 2%positive.

Definition w_person : world := World catalog {[ rec := person ]}.
Definition w_contact : world := World catalog {[ rec := contact ]}.

(** a world in which the copy has been made and nothing redacted yet *)
Definition w_person_copied : world :=
  World catalog {[ rec := person; copy := person ]}.

End Sample.

(** ** The log in closed form *)

(** the entries of the standalone rules that apply, in catalog order *)
Definition solo_entries (d : gmap string value)
    (items : list (string * Standalone.rule)) : list string :=
  map (λ item, solo_entry item.1) (List.filter (solo_hit d) items).

(** the entries of the combinatorial rules that apply, in catalog order *)
Definition combo_entries (d : gmap string value)
    (items : list (string * Combinatorial.rule)) : list string :=
  map (λ item, combo_entry d item.2) (List.filter (λ item, combo_hit d item.2) items).

(** every standalone rule that applies to the record names a known strategy *)
Definition hits_valid (d : gmap string value) (conf : Catalog) : Prop :=
  ∀ item, item ∈ standalone_pii_patterns conf →
          solo_hit d item = true →
          is_Some (assoc (Standalone.redactor item.2) _get_redactors).

(** every field of [sd] holds its value in [d] or a string *)
Definition input_or_text (d sd : gmap string value) : Prop :=
  ∀ k, sd !! k = d !! k ∨ ∃ s, sd !! k = Some (VStr s).

(** ** More sample data *)

Module Sample2.

(** a catalog whose second rule names a strategy that does not exist *)
Definition bad_rule : Standalone.rule :=
  Standalone.Rule Sample.email_re F64.half "mask_mail".

Definition bad_catalog : Catalog := {|
  standalone_pii_patterns := [ ("ssn", Sample.ssn_rule); ("email", bad_rule) ];
  combinatorial_pii_sets := [ ("name", Sample.name_rule) ];
  redaction_placeholders := ∅
|}.

Definition w_bad : world := World bad_catalog {[ Sample.rec := Sample.contact ]}.

(** a record no rule of the sample catalog applies to *)
Definition plain : gmap string value :=
  {[ "city" := VStr "Paris"; "age" := VInt 41 ]}.

Definition w_plain : world := World Sample.catalog {[ Sample.rec := plain ]}.

(** two records with the same field names *)
Definition other_contact : gmap string value :=
  {[ "email" := VStr "john.roe@example.org" ]}.

Definition w_pair : world :=
  World Sample.catalog {[ Sample.rec := Sample.contact; Sample.copy := other_contact ]}.

(** a catalog with a base score below zero *)
Definition neg_catalog : Catalog := {|
  standalone_pii_patterns :=
    [ ("email", Standalone.Rule Sample.email_re (Finite (- 1 # 2)) "mask_email") ];
  combinatorial_pii_sets :=
    [ ("name", Combinatorial.Rule ["first_name"; "last_name"] (Finite (1 # 4))) ];
  redaction_placeholders := ∅
|}.

Definition named : gmap string value :=
  {[ "email" := VStr "jane.doe@example.com";
     "first_name" := VStr "Jane";
     "last_name" := VStr "Doe" ]}.

Definition w_neg : world := World neg_catalog {[ Sample.rec := named ]}.

End Sample2.

(** * Proofs *)

(** ** Strings *)

Module StrFacts.

Lemma app_nil_l (s : string) : "" +:+ s = s.
Proof. reflexivity. Qed.

Lemma app_cons (c : ascii) (s t : string) : String c s +:+ t = String c (s +:+ t).
Proof. reflexivity. Qed.

Lemma length_app (s t : string) :
  String.length (s +:+ t) = (String.length s + String.length t)%nat.
Proof. induction s as [|c s IH]; [done|]. rewrite app_cons. simpl. by rewrite IH. Qed.

Lemma length_take (n : nat) (s : string) :
  (n ≤ String.length s)%nat → String.length (Str.take n s) = n.
Proof.
  revert s. induction n as [|n IH]; intros [|c s] Hn; simpl in *; try done; try lia.
  rewrite IH; [done | lia].
Qed.

Lemma length_drop (n : nat) (s : string) :
  String.length (Str.drop n s) = (String.length s - n)%nat.
Proof. revert s. induction n as [|n IH]; intros [|c s]; simpl; auto. Qed.

Lemma length_rep (c : ascii) (n : nat) : String.length (Str.rep c n) = n.
Proof. induction n; simpl; auto. Qed.

Lemma take_drop (n : nat) (s : string) : Str.take n s +:+ Str.drop n s = s.
Proof.
  revert s. induction n as [|n IH]; intros [|c s]; simpl; try done.
  rewrite app_cons. by rewrite IH.
Qed.

Lemma drop_app_length (s t : string) : Str.drop (String.length s) (s +:+ t) = t.
Proof. induction s as [|c s IH]; simpl; [by destruct t | exact IH]. Qed.

Lemma split1_absent (sep : ascii) (s : string) :
  Str.mem sep s = false → Str.split1 sep s = [s].
Proof.
  induction s as [|c s IH]; simpl; [done|].
  destruct (Ascii.eqb c sep); [done|]. intros H. by rewrite IH.
Qed.

Lemma split1_first (sep : ascii) (user domain : string) :
  Str.mem sep user = false →
  Str.split1 sep (user +:+ String sep domain) = [user; domain].
Proof.
  induction user as [|c s IH]; simpl.
  - intros _. by rewrite Ascii.eqb_refl.
  - destruct (Ascii.eqb c sep) eqn:E; [done|]. intros H. by rewrite IH.
Qed.

Lemma length2_inv (s : string) :
  String.length s = 2%nat → ∃ c e, s = String c (String e "").
Proof. destruct s as [|c [|e [|? ?]]]; simpl; try done. eauto. Qed.

End StrFacts.

(** ** The masking strategies *)

Example mask_str_password : _mask_str (VStr "password123") = "paXXXXXXX23".
Proof. reflexivity. Qed.

Example mask_mail_jane :
  _mask_mail (VStr "jane.doe@example.com") = Ret "jaXXXXoe@example.com".
Proof. reflexivity. Qed.

Example mask_mail_int : _mask_mail (VInt 1234567) = Ret "12XXX67".
Proof. reflexivity. Qed.

Lemma mask_str_short (s : string) :
  (String.length s < 5)%nat → _mask_str (VStr s) = "****".
Proof. intros H. unfold _mask_str. by destruct (Nat.ltb_spec (String.length s) 5); [|lia]. Qed.

Lemma mask_str_long (s : string) :
  (5 ≤ String.length s)%nat →
  _mask_str (VStr s)
  = Str.take 2 s +:+ Str.rep "X" (String.length s - 4)
                 +:+ Str.drop (String.length s - 2) s.
Proof. intros H. unfold _mask_str. by destruct (Nat.ltb_spec (String.length s) 5); [lia|]. Qed.

Lemma mask_str_length (s : string) :
  (5 ≤ String.length s)%nat → String.length (_mask_str (VStr s)) = String.length s.
Proof.
  intros H. rewrite mask_str_long by done.
  rewrite !StrFacts.length_app, StrFacts.length_take, StrFacts.length_rep,
    StrFacts.length_drop by lia.
  lia.
Qed.

Lemma mask_str_shape (a b c e : ascii) (mid : string) :
  (1 ≤ String.length mid)%nat →
  _mask_str (VStr (String a (String b (mid +:+ String c (String e "")))))
  = String a (String b (Str.rep "X" (String.length mid) +:+ String c (String e ""))).
Proof.
  intros H.
  assert (Hlen : String.length (String a (String b (mid +:+ String c (String e ""))))
                 = S (S (String.length mid + 2))).
  { simpl. by rewrite StrFacts.length_app. }
  rewrite mask_str_long by (rewrite Hlen; lia).
  rewrite Hlen.
  replace (S (S (String.length mid + 2)) - 4)%nat with (String.length mid) by lia.
  replace (S (S (String.length mid + 2)) - 2)%nat with (S (S (String.length mid))) by lia.
  cbn [Str.take Str.drop]. rewrite StrFacts.drop_app_length.
  by rewrite !StrFacts.app_cons, StrFacts.app_nil_l.
Qed.

Lemma long_string_shape (s : string) :
  (5 ≤ String.length s)%nat →
  ∃ a b mid c e, s = String a (String b (mid +:+ String c (String e "")))
                 ∧ String.length mid = (String.length s - 4)%nat.
Proof.
  destruct s as [|a [|b rest]]; simpl; try lia. intros H.
  pose proof (StrFacts.take_drop (String.length rest - 2) rest) as Hsplit.
  destruct (StrFacts.length2_inv (Str.drop (String.length rest - 2) rest)) as (c & e & Htail).
  { rewrite StrFacts.length_drop. lia. }
  exists a, b, (Str.take (String.length rest - 2) rest), c, e. split.
  - by rewrite <- Htail, Hsplit.
  - rewrite StrFacts.length_take; lia.
Qed.

Lemma mask_mail_split (user domain : string) :
  Str.mem "@" user = false →
  _mask_mail (VStr (user +:+ String "@" domain))
  = Ret (_mask_str (VStr user) +:+ String "@" domain).
Proof.
  intros H. unfold _mask_mail, py_split1. by rewrite StrFacts.split1_first.
Qed.

Lemma mask_mail_no_at (s : string) :
  Str.mem "@" s = false → _mask_mail (VStr s) = Ret (_mask_str (VStr s)).
Proof. intros H. unfold _mask_mail, py_split1. by rewrite StrFacts.split1_absent. Qed.

Lemma mask_mail_not_text (v : value) :
  isinstance_str v = false → _mask_mail v = Ret (_mask_str (VStr (py_str v))).
Proof. by destruct v. Qed.

Lemma split1_cases (sep : ascii) (s : string) :
  (∃ a, Str.split1 sep s = [a]) ∨ (∃ a b, Str.split1 sep s = [a; b]).
Proof.
  induction s as [|c s IH]; simpl; [eauto|].
  destruct (Ascii.eqb c sep); [eauto|].
  destruct IH as [[a ->]|(a & b & ->)]; eauto.
Qed.

Lemma mask_mail_total (v : value) : ∃ s, _mask_mail v = Ret s.
Proof.
  destruct v as [s| | | |]; try (eexists; reflexivity).
  unfold _mask_mail, py_split1.
  destruct (split1_cases "@" s) as [[a ->]|(a & b & ->)]; eexists; reflexivity.
Qed.

Lemma redactors_total (name : string) (fn : mask_fn) (v : value) :
  assoc name _get_redactors = Some fn → fn v = Ret (masked name v).
Proof.
  intros H. unfold masked. rewrite H.
  assert (∃ s, fn v = Ret s) as [s ->]; [|done].
  unfold _get_redactors in H. cbn [assoc] in H.
  destruct (String.eqb "mask_string" name); [injection H as <-; by eexists|].
  destruct (String.eqb "mask_email" name); [injection H as <-; apply mask_mail_total|].
  destruct (String.eqb "mask_numeric" name); [injection H as <-; by eexists|].
  done.
Qed.

(** ** Running the monad *)

Lemma bind_run {A B} (m : M A) (f : A → M B) (w : world) :
  (m ≫= f) w
  = match m w with
    | (Ret a, w') => f a w'
    | (Raise e, w') => (Raise e, w')
    end.
Proof. reflexivity. Qed.

Lemma ret_run {A} (a : A) (w : world) : (mret a : M A) w = (Ret a, w).
Proof. reflexivity. Qed.

Lemma world_eta (w : world) : World (w_conf w) (w_heap w) = w.
Proof. by destruct w. Qed.

Section Run.

Variables (w : world) (l : loc) (d : gmap string value).
Hypothesis Hl : w_heap w !! l = Some d.

Lemma dict_contains_run (k : string) :
  dict_contains l k w = (Ret (bool_decide (is_Some (d !! k))), w).
Proof. unfold dict_contains. by rewrite Hl. Qed.

Lemma dict_getitem_run (k : string) (v : value) :
  d !! k = Some v → dict_getitem l k w = (Ret v, w).
Proof. intros Hk. unfold dict_getitem. by rewrite Hl, Hk. Qed.

Lemma dict_setitem_run (k : string) (v : value) :
  dict_setitem l k v w
  = (Ret tt, World (w_conf w) (<[l := <[k := v]> d]> (w_heap w))).
Proof. unfold dict_setitem. by rewrite Hl. Qed.

Lemma keys_in_run (ks : list string) :
  keys_in l ks w = (Ret (keys_found d ks), w).
Proof.
  induction ks as [|k ks IH]; [done|].
  cbn [keys_in]. rewrite bind_run, dict_contains_run.
  rewrite bind_run, IH. cbn [keys_found List.filter].
  by destruct (bool_decide (is_Some (d !! k))).
Qed.

End Run.

Lemma standalone_body_run (w : world) (rec safe : loc) (d sd : gmap string value)
    (score : f64) (log : list string) (item : string * Standalone.rule) :
  w_heap w !! rec = Some d →
  w_heap w !! safe = Some sd →
  standalone_body rec safe (score, log) item w
  = if solo_hit d item
    then match assoc (Standalone.redactor item.2) _get_redactors with
         | Some _ =>
             (Ret (F64.add score (Standalone.base_score item.2),
                   (log ++ [solo_entry item.1])%list),
              World (w_conf w) (<[safe := solo_redact d sd item]> (w_heap w)))
         | None => (Raise (KeyError (Standalone.redactor item.2)), w)
         end
    else (Ret (score, log), w).
Proof.
  intros Hrec Hsafe. destruct item as [k rule]. cbn [fst snd] in *.
  unfold standalone_body, solo_hit, solo_redact, solo_hit. cbn [fst snd].
  rewrite bind_run, (dict_contains_run _ _ _ Hrec).
  destruct (d !! k) as [v|] eqn:Hk.
  2:{ rewrite bool_decide_eq_false_2 by (by intros [? ?]). by rewrite bind_run, ret_run. }
  rewrite bool_decide_eq_true_2 by eauto.
  rewrite !bind_run, (dict_getitem_run _ _ _ Hrec _ _ Hk), ret_run.
  destruct v as [s| | | |]; cbn [isinstance_str]; try by rewrite ?ret_run.
  rewrite bind_run, (dict_getitem_run _ _ _ Hrec _ _ Hk).
  rewrite bind_run. unfold lift at 1. cbn [py_fullmatch].
  destruct (Re.fullmatch (Standalone.compiled rule) s); [|by rewrite ret_run].
  rewrite bind_run. unfold lift at 1, redactors_getitem.
  destruct (assoc (Standalone.redactor rule) _get_redactors) as [fn|] eqn:Hfn; [|done].
  rewrite bind_run, (dict_getitem_run _ _ _ Hrec _ _ Hk).
  rewrite bind_run. unfold lift at 1. rewrite (redactors_total _ _ _ Hfn).
  rewrite bind_run, (dict_setitem_run _ _ _ Hsafe). by rewrite ret_run.
Qed.

Lemma world_insert_id (w : world) (l : loc) (d : gmap string value) :
  w_heap w !! l = Some d → World (w_conf w) (<[l := d]> (w_heap w)) = w.
Proof. intros H. rewrite insert_id by done. apply world_eta. Qed.

Lemma solo_redact_miss (d sd : gmap string value) (item : string * Standalone.rule) :
  solo_hit d item = false → solo_redact d sd item = sd.
Proof. intros H. unfold solo_redact. rewrite H. by destruct (d !! item.1). Qed.

Lemma standalone_loop_run (rec safe : loc) (d : gmap string value)
    (items : list (string * Standalone.rule)) :
  rec ≠ safe →
  (∀ item, item ∈ items → is_Some (assoc (Standalone.redactor item.2) _get_redactors)) →
  ∀ (w : world) (sd : gmap string value) (score : f64) (log : list string),
    w_heap w !! rec = Some d →
    w_heap w !! safe = Some sd →
    for_each (standalone_body rec safe) (score, log) items w
    = (Ret (solo_score d items score, solo_log d items log),
       World (w_conf w) (<[safe := fold_left (solo_redact d) items sd]> (w_heap w))).
Proof.
  intros Hne. induction items as [|item items IH]; intros Hvalid w sd score log Hrec Hsafe.
  { cbn. by rewrite world_insert_id. }
  cbn [for_each]. rewrite bind_run.
  rewrite (standalone_body_run _ _ _ d sd) by done.
  unfold solo_score, solo_log. cbn [fold_left].
  destruct (solo_hit d item) eqn:Hhit.
  - destruct (Hvalid item) as [fn ->]; [left|].
    rewrite IH with (sd := solo_redact d sd item); cbn [w_conf w_heap].
    + by rewrite insert_insert_eq.
    + intros ? ?. apply Hvalid. by right.
    + by rewrite lookup_insert_ne.
    + by rewrite lookup_insert_eq.
  - rewrite (solo_redact_miss _ _ _ Hhit).
    apply IH; [|done..]. intros ? ?. apply Hvalid. by right.
Qed.

Lemma combinatorial_body_run (w : world) (rec : loc) (d : gmap string value)
    (score : f64) (log : list string) (p : gset string)
    (item : string * Combinatorial.rule) :
  w_heap w !! rec = Some d →
  combinatorial_body rec (score, log, p) item w
  = (Ret (if combo_hit d item.2
          then (F64.add score (combo_contribution d item.2),
                (log ++ [combo_entry d item.2])%list,
                p ∪ list_to_set (keys_found d (Combinatorial.keys item.2)))
          else (score, log, p)), w).
Proof.
  intros Hrec. destruct item as [name rule]. unfold combinatorial_body.
  rewrite bind_run, (keys_in_run _ _ _ Hrec). unfold combo_hit. cbn [snd].
  by destruct (2 <=? _)%nat.
Qed.

Lemma combinatorial_loop_run (rec : loc) (d : gmap string value) (w : world)
    (items : list (string * Combinatorial.rule)) :
  w_heap w !! rec = Some d →
  ∀ (score : f64) (log : list string) (p : gset string),
    for_each (combinatorial_body rec) (score, log, p) items w
    = (Ret (combo_score d items score, combo_log d items log, combo_pending d items p), w).
Proof.
  intros Hrec. induction items as [|item items IH]; intros score log p; [done|].
  cbn [for_each]. rewrite bind_run, (combinatorial_body_run _ _ d) by done.
  unfold combo_score, combo_log, combo_pending. cbn [fold_left].
  destruct (combo_hit d item.2); apply IH.
Qed.

Lemma redact_body_run (w : world) (rec safe : loc) (d sd : gmap string value)
    (key : string) :
  w_heap w !! rec = Some d →
  w_heap w !! safe = Some sd →
  is_Some (d !! key) →
  redact_body rec safe tt key w
  = (Ret tt,
     World (w_conf w) (<[safe := placeholder_redact d (w_conf w) sd key]> (w_heap w))).
Proof.
  intros Hrec Hsafe [v Hv]. unfold redact_body, placeholder_redact.
  rewrite bind_run. unfold get_conf at 1.
  destruct (redaction_placeholders (w_conf w) !! key) as [mask|];
    [|by rewrite ret_run, world_insert_id].
  destruct (assoc mask _get_redactors) as [fn|] eqn:Hfn.
  - rewrite Hv, bind_run, (dict_getitem_run _ _ _ Hrec _ _ Hv).
    rewrite bind_run. unfold lift at 1. rewrite (redactors_total _ _ _ Hfn).
    by rewrite (dict_setitem_run _ _ _ Hsafe).
  - destruct (String.eqb mask ""); [by rewrite ret_run, world_insert_id|].
    by rewrite (dict_setitem_run _ _ _ Hsafe).
Qed.

Lemma redact_loop_run (rec safe : loc) (d : gmap string value) (ks : list string) :
  rec ≠ safe →
  (∀ k, k ∈ ks → is_Some (d !! k)) →
  ∀ (w : world) (sd : gmap string value),
    w_heap w !! rec = Some d →
    w_heap w !! safe = Some sd →
    for_each (redact_body rec safe) tt ks w
    = (Ret tt,
       World (w_conf w)
             (<[safe := fold_left (placeholder_redact d (w_conf w)) ks sd]> (w_heap w))).
Proof.
  intros Hne. induction ks as [|k ks IH]; intros Hin w sd Hrec Hsafe.
  { cbn. by rewrite world_insert_id. }
  cbn [for_each]. rewrite bind_run.
  rewrite (redact_body_run _ _ _ d sd) by (try done; apply Hin; left).
  rewrite IH with (sd := placeholder_redact d (w_conf w) sd k); cbn [w_conf w_heap].
  - by rewrite insert_insert_eq.
  - intros ? ?. apply Hin. by right.
  - by rewrite lookup_insert_ne.
  - by rewrite lookup_insert_eq.
Qed.

Lemma keys_found_present (d : gmap string value) (ks : list string) (k : string) :
  k ∈ keys_found d ks → k ∈ ks ∧ is_Some (d !! k).
Proof.
  unfold keys_found. rewrite list_elem_of_In, filter_In, <- list_elem_of_In.
  intros [? ?%bool_decide_eq_true]. done.
Qed.

Lemma combo_pending_cons (d : gmap string value) (item : string * Combinatorial.rule)
    (items : list (string * Combinatorial.rule)) (p0 : gset string) :
  combo_pending d (item :: items) p0
  = combo_pending d items
      (if combo_hit d item.2
       then p0 ∪ list_to_set (keys_found d (Combinatorial.keys item.2))
       else p0).
Proof. reflexivity. Qed.

Lemma combo_pending_elem (d : gmap string value)
    (items : list (string * Combinatorial.rule)) (p0 : gset string) (k : string) :
  k ∈ combo_pending d items p0 ↔
  k ∈ p0 ∨ ∃ item, item ∈ items ∧ combo_hit d item.2 = true
                   ∧ k ∈ keys_found d (Combinatorial.keys item.2).
Proof.
  revert p0. induction items as [|item items IH]; intros p0.
  { cbn. split; [auto|]. intros [?|(? & []%elem_of_nil & _)]. done. }
  rewrite combo_pending_cons, IH. destruct (combo_hit d item.2) eqn:Hhit.
  - rewrite elem_of_union, elem_of_list_to_set. split.
    + intros [[?|?]|(it & ? & ?)]; [by left| |].
      * right. exists item. split; [left|done].
      * right. exists it. split; [by right|done].
    + intros [?|(it & [->|?]%elem_of_cons & ? & ?)]; [by left; left|by left; right|].
      right. by exists it.
  - split.
    + intros [?|(it & ? & ?)]; [by left|]. right. exists it. split; [by right|done].
    + intros [?|(it & [->|?]%elem_of_cons & ? & ?)]; [by left|congruence|].
      right. by exists it.
Qed.

Lemma pending_present (d : gmap string value) (conf : Catalog) (k : string) :
  k ∈ pending d conf → is_Some (d !! k).
Proof.
  unfold pending. rewrite combo_pending_elem.
  intros [[]%not_elem_of_empty|(item & _ & _ & Hk)].
  by apply keys_found_present in Hk as [_ ?].
Qed.

(** ** The whole scan *)

Theorem scan_run (w : world) (rec : loc) (d : gmap string value) :
  w_heap w !! rec = Some d →
  catalog_valid (w_conf w) →
  scan rec w
  = (Ret (fresh (dom (w_heap w)),
          F64.ltb F64.half (py_min1 (running_total d (w_conf w))),
          py_round2 (py_min1 (running_total d (w_conf w))),
          rationale d (w_conf w)),
     World (w_conf w)
           (<[fresh (dom (w_heap w)) := sanitized d (w_conf w)]> (w_heap w))).
Proof.
  intros Hrec Hvalid. unfold scan.
  set (safe := fresh (dom (w_heap w))).
  assert (Hfresh : w_heap w !! safe = None).
  { apply not_elem_of_dom, is_fresh. }
  assert (Hne : rec ≠ safe) by congruence.
  rewrite bind_run. unfold dict_copy at 1. rewrite Hrec. fold safe.
  rewrite bind_run. unfold get_conf at 1. cbn [w_conf].
  rewrite bind_run.
  rewrite (standalone_loop_run rec safe d _ Hne Hvalid _ d); cbn [w_heap w_conf];
    [|by rewrite lookup_insert_ne|by rewrite lookup_insert_eq].
  rewrite insert_insert_eq.
  rewrite bind_run. unfold get_conf at 1. cbn [w_conf].
  rewrite bind_run, (combinatorial_loop_run rec d); cbn [w_heap];
    [|by rewrite lookup_insert_ne].
  rewrite bind_run.
  rewrite (redact_loop_run rec safe d _ Hne) with (sd := after_standalone d (w_conf w));
    cbn [w_heap w_conf].
  - rewrite insert_insert_eq, ret_run.
    unfold rationale, running_total, sanitized, pending.
    by destruct (combo_log d _ _).
  - intros k Hk%elem_of_elements. by apply (pending_present d (w_conf w)).
  - by rewrite lookup_insert_ne.
  - by rewrite lookup_insert_eq.
Qed.

(** ** What [scan] may write *)

Section Frame.

Variable safe : loc.

Lemma frame_refl (w : world) : frame safe w w.
Proof. by repeat split. Qed.

Lemma frame_trans (w1 w2 w3 : world) :
  frame safe w1 w2 → frame safe w2 w3 → frame safe w1 w3.
Proof.
  intros (Hc1 & Hh1 & Hs1) (Hc2 & Hh2 & Hs2). repeat split.
  - congruence.
  - intros l Hl. rewrite Hh2, Hh1; done.
  - auto.
Qed.

Lemma writes_only_ret {A} (a : A) : writes_only safe (mret a).
Proof. intros w. apply frame_refl. Qed.

Lemma writes_only_bind {A B} (m : M A) (f : A → M B) :
  writes_only safe m → (∀ a, writes_only safe (f a)) → writes_only safe (m ≫= f).
Proof.
  intros Hm Hf w. rewrite bind_run. specialize (Hm w).
  destruct (m w) as [[a|e] w1]; cbn [snd] in *; [|done].
  eapply frame_trans; [done | apply Hf].
Qed.

Lemma writes_only_lift {A} (o : outcome A) : writes_only safe (lift o).
Proof. intros w. apply frame_refl. Qed.

Lemma writes_only_get_conf : writes_only safe get_conf.
Proof. intros w. apply frame_refl. Qed.

Lemma writes_only_contains (l : loc) (k : string) : writes_only safe (dict_contains l k).
Proof. intros w. unfold dict_contains. destruct (w_heap w !! l); apply frame_refl. Qed.

Lemma writes_only_getitem (l : loc) (k : string) : writes_only safe (dict_getitem l k).
Proof.
  intros w. unfold dict_getitem.
  destruct (w_heap w !! l) as [d|]; [destruct (d !! k)|]; apply frame_refl.
Qed.

Lemma writes_only_setitem (k : string) (v : value) :
  writes_only safe (dict_setitem safe k v).
Proof.
  intros w. unfold dict_setitem.
  destruct (w_heap w !! safe) as [d|]; [|apply frame_refl].
  repeat split; cbn.
  - intros l Hl. by rewrite lookup_insert_ne.
  - intros _. by rewrite lookup_insert_eq.
Qed.

Lemma writes_only_for_each {A B} (body : B → A → M B) (items : list A) :
  (∀ b x, writes_only safe (body b x)) →
  ∀ b, writes_only safe (for_each body b items).
Proof.
  intros Hbody. induction items as [|x items IH]; intros b; cbn [for_each].
  - apply writes_only_ret.
  - apply writes_only_bind; [apply Hbody | apply IH].
Qed.

Lemma writes_only_keys_in (l : loc) (ks : list string) : writes_only safe (keys_in l ks).
Proof.
  induction ks as [|k ks IH]; cbn [keys_in]; [apply writes_only_ret|].
  apply writes_only_bind; [apply writes_only_contains|]. intros present.
  apply writes_only_bind; [apply IH|]. intros found. apply writes_only_ret.
Qed.

Create HintDb frame.
Hint Resolve writes_only_ret writes_only_lift writes_only_get_conf
  writes_only_contains writes_only_getitem writes_only_setitem
  writes_only_keys_in : frame.

Ltac frame_steps :=
  repeat first
    [ apply writes_only_bind; [ solve [auto with frame] | intros ? ]
    | solve [auto with frame]
    | match goal with
      | |- writes_only _ (if ?b then _ else _) => destruct b
      | |- writes_only _ (match ?o with Some _ => _ | None => _ end) => destruct o
      | |- writes_only _ (let '(_, _) := ?p in _) => destruct p
      end ].

Lemma writes_only_standalone_body (rec : loc) (acc : f64 * list string)
    (item : string * Standalone.rule) :
  writes_only safe (standalone_body rec safe acc item).
Proof.
  destruct acc as [score log], item as [k rule]. unfold standalone_body.
  apply writes_only_bind; [auto with frame|]. intros present.
  apply writes_only_bind.
  { destruct present; frame_steps. }
  intros textual. frame_steps.
Qed.

Lemma writes_only_combinatorial_body (rec : loc) (acc : f64 * list string * gset string)
    (item : string * Combinatorial.rule) :
  writes_only safe (combinatorial_body rec acc item).
Proof.
  destruct acc as [[score log] p], item as [name rule]. unfold combinatorial_body.
  frame_steps.
Qed.

Lemma writes_only_redact_body (rec : loc) (u : unit) (key : string) :
  writes_only safe (redact_body rec safe u key).
Proof. unfold redact_body. frame_steps. Qed.

End Frame.

Lemma scan_frame (w w' : world) (rec : loc) (out : outcome (loc * bool * f64 * string)) :
  scan rec w = (out, w') →
  w_conf w' = w_conf w
  ∧ (∀ l, is_Some (w_heap w !! l) → w_heap w' !! l = w_heap w !! l)
  ∧ (∀ safe is_pii confidence reason,
       out = Ret (safe, is_pii, confidence, reason) →
       w_heap w !! safe = None ∧ safe ≠ rec ∧ is_Some (w_heap w' !! safe)).
Proof.
  unfold scan. rewrite bind_run. unfold dict_copy at 1.
  destruct (w_heap w !! rec) as [d|] eqn:Hrec.
  2:{ intros [= <- <-]. repeat split; done. }
  set (safe := fresh (dom (w_heap w))).
  assert (Hfresh : w_heap w !! safe = None) by apply not_elem_of_dom, is_fresh.
  set (w1 := World (w_conf w) (<[safe := d]> (w_heap w))).
  match goal with |- ?m w1 = _ → _ => set (rest := m) end.
  assert (Hrest : writes_only safe rest).
  { subst rest. cbn beta.
    apply writes_only_bind; [apply writes_only_get_conf|]. intros conf.
    apply writes_only_bind.
    { apply writes_only_for_each. intros. apply writes_only_standalone_body. }
    intros [score log].
    apply writes_only_bind; [apply writes_only_get_conf|]. intros conf'.
    apply writes_only_bind.
    { apply writes_only_for_each. intros. apply writes_only_combinatorial_body. }
    intros [[score' log'] p].
    apply writes_only_bind.
    { apply writes_only_for_each. intros. apply writes_only_redact_body. }
    intros _. apply writes_only_ret. }
  intros Hrun. destruct (Hrest w1) as (Hc & Hh & Hs). rewrite Hrun in *. cbn [snd] in *.
  subst w1. cbn [w_conf w_heap] in *. split; [done|]. split.
  - intros l Hl. rewrite Hh by (intros ->; rewrite Hfresh in Hl; by destruct Hl).
    apply lookup_insert_ne. intros <-. rewrite Hfresh in Hl. by destruct Hl.
  - intros safe' is_pii confidence reason ->.
    assert (safe' = safe) as ->.
    { revert Hrun. subst rest. cbn beta. clear.
      rewrite bind_run. unfold get_conf at 1.
      rewrite bind_run. destruct (for_each _ _ _ _) as [[[s1 l1]|e] wa]; [|done].
      rewrite bind_run. unfold get_conf at 1.
      rewrite bind_run. destruct (for_each _ _ _ _) as [[[[s2 l2] p]|e] wb]; [|done].
      rewrite bind_run. destruct (for_each _ _ _ _) as [[[]|e] wc]; [|done].
      rewrite ret_run. by intros [= <- _ _ _ _]. }
    split; [done|]. split; [congruence|].
    apply Hs. by rewrite lookup_insert_eq.
Qed.

(** ** Rounding to an integer *)

Section Rounding.

Local Open Scope Q_scope.

Lemma round_half_even_cases (q : Q) :
  (round_half_even q = Qfloor q
   ∧ (q - inject_Z (Qfloor q) < 1 # 2
      ∨ (q - inject_Z (Qfloor q) == 1 # 2 ∧ Z.even (Qfloor q) = true)))
  ∨ (round_half_even q = (Qfloor q + 1)%Z
     ∧ (1 # 2 < q - inject_Z (Qfloor q)
        ∨ (q - inject_Z (Qfloor q) == 1 # 2 ∧ Z.even (Qfloor q) = false))).
Proof.
  unfold round_half_even.
  destruct (Qcompare_spec (q - inject_Z (Qfloor q)) (1 # 2)) as [H|H|H].
  - destruct (Z.even (Qfloor q)) eqn:E; [left|right]; auto.
  - left; auto.
  - right; auto.
Qed.

Lemma floor_bounds (q : Q) :
  inject_Z (Qfloor q) <= q ∧ q < inject_Z (Qfloor q) + 1.
Proof.
  split; [apply Qfloor_le|].
  pose proof (Qlt_floor q) as H. rewrite inject_Z_plus in H. exact H.
Qed.

Lemma round_half_even_mono (p q : Q) :
  p <= q → (round_half_even p ≤ round_half_even q)%Z.
Proof.
  intros Hle.
  pose proof (Qfloor_resp_le _ _ Hle) as Hfl.
  pose proof (floor_bounds p) as [Hp1 Hp2].
  pose proof (floor_bounds q) as [Hq1 Hq2].
  destruct (Z.eq_dec (Qfloor p) (Qfloor q)) as [Heq|Hneq].
  - destruct (round_half_even_cases p) as [[-> _]|[-> Hp]];
      destruct (round_half_even_cases q) as [[-> Hq]|[-> _]]; try lia.
    rewrite Heq in *.
    destruct Hp as [Hp|[Hp Ep]], Hq as [Hq|[Hq Eq]]; try lra. congruence.
  - destruct (round_half_even_cases p) as [[-> _]|[-> _]];
      destruct (round_half_even_cases q) as [[-> _]|[-> _]]; lia.
Qed.

Lemma round_half_even_Z (n : Z) : round_half_even (inject_Z n) = n.
Proof.
  destruct (round_half_even_cases (inject_Z n)) as [[-> _]|[_ H]];
    [apply Qfloor_Z|].
  rewrite Qfloor_Z in H. destruct H as [H|[H _]]; lra.
Qed.

Lemma round_half_even_le_Z (q : Q) (n : Z) :
  q <= inject_Z n → (round_half_even q ≤ n)%Z.
Proof. intros H. rewrite <- (round_half_even_Z n). by apply round_half_even_mono. Qed.

Lemma round_half_even_ge_Z (q : Q) (n : Z) :
  inject_Z n <= q → (n ≤ round_half_even q)%Z.
Proof. intros H. rewrite <- (round_half_even_Z n). by apply round_half_even_mono. Qed.

Lemma round_half_even_comp (p q : Q) : p == q → round_half_even p = round_half_even q.
Proof.
  intros H. apply Z.le_antisymm; apply round_half_even_mono; lra.
Qed.

Lemma round_half_even_close (q : Q) :
  q - (1 # 2) <= inject_Z (round_half_even q) <= q + (1 # 2).
Proof.
  pose proof (floor_bounds q) as [H1 H2].
  destruct (round_half_even_cases q) as [[-> H]|[-> H]].
  - destruct H as [H|[H _]]; split; lra.
  - rewrite inject_Z_plus. change (inject_Z 1) with 1.
    destruct H as [H|[H _]]; split; lra.
Qed.

End Rounding.

(** ** Binary64 *)

Module F64Facts.

Import F64.
Local Open Scope Q_scope.

Lemma two_pow_pos (e : Z) : 0 < two_pow e.
Proof. apply Qpower_0_lt. reflexivity. Qed.

Lemma two_pow_plus (a b : Z) : two_pow (a + b) == two_pow a * two_pow b.
Proof. apply Qpower_plus. discriminate. Qed.

Lemma two_pow_mono (a b : Z) : (a ≤ b)%Z → two_pow a <= two_pow b.
Proof. intros H. apply Qpower_le_compat_l; [done|]. discriminate. Qed.

Lemma two_pow_Z (n : Z) : (0 ≤ n)%Z → two_pow n == inject_Z (2 ^ n).
Proof. intros H. symmetry. by apply Zpower_Qpower. Qed.

Lemma Qmake_div (a : Q) : a == inject_Z (Qnum a) / inject_Z (Zpos (Qden a)).
Proof. destruct a as [n d]. apply Qmake_Qdiv. Qed.

Lemma ilog2_spec (a : Q) :
  0 < a → two_pow (ilog2 a) <= a ∧ a < two_pow (ilog2 a + 1).
Proof.
  intros Ha. unfold ilog2.
  set (n := Qnum a). set (d := Zpos (Qden a)).
  assert (Hn : (0 < n)%Z).
  { destruct a as [num den]. unfold Qlt in Ha. simpl in *. subst n. simpl. lia. }
  assert (Hd : (0 < d)%Z) by (subst d; lia).
  destruct (Z.log2_spec n Hn) as [Hn1 Hn2].
  destruct (Z.log2_spec d Hd) as [Hd1 Hd2].
  set (ln := Z.log2 n) in *. set (ld := Z.log2 d) in *.
  assert (Hln : (0 ≤ ln)%Z) by apply Z.log2_nonneg.
  assert (Hld : (0 ≤ ld)%Z) by apply Z.log2_nonneg.
  assert (Ea : a * inject_Z d == inject_Z n).
  { subst n d. destruct a as [num den]. unfold Qeq, Qmult, inject_Z. cbn. lia. }
  assert (Qd : 0 < inject_Z d) by (by rewrite <- (Zlt_Qlt 0)).
  rewrite Zle_Qle, <- two_pow_Z in Hn1, Hd1 by done.
  rewrite Zlt_Qlt, <- two_pow_Z, <- Z.add_1_r in Hn2, Hd2 by lia.
  pose proof (two_pow_pos ld) as Pld.
  assert (Hup : a < two_pow (ln - ld + 1)).
  { assert (E : two_pow (ln + 1) == two_pow (ln - ld + 1) * two_pow ld).
    { rewrite <- two_pow_plus. by replace (ln - ld + 1 + ld)%Z with (ln + 1)%Z by lia. }
    pose proof (two_pow_pos (ln - ld + 1)) as HP.
    apply Qnot_le_lt. intros Hge.
    assert (H1 : two_pow (ln - ld + 1) * inject_Z d <= a * inject_Z d)
      by (apply Qmult_le_compat_r; lra).
    assert (H2 : two_pow ld * two_pow (ln - ld + 1)
                 <= inject_Z d * two_pow (ln - ld + 1))
      by (apply Qmult_le_compat_r; lra).
    lra. }
  assert (Hlow : two_pow (ln - ld - 1) <= a).
  { assert (E : two_pow ln == two_pow (ln - ld - 1) * two_pow (ld + 1)).
    { rewrite <- two_pow_plus. by replace (ln - ld - 1 + (ld + 1))%Z with ln by lia. }
    pose proof (two_pow_pos (ln - ld - 1)) as HP.
    apply Qnot_lt_le. intros Hlt.
    assert (H1 : a * inject_Z d < two_pow (ln - ld - 1) * inject_Z d)
      by (by apply Qmult_lt_compat_r).
    assert (H2 : inject_Z d * two_pow (ln - ld - 1)
                 < two_pow (ld + 1) * two_pow (ln - ld - 1))
      by (by apply Qmult_lt_compat_r).
    lra. }
  destruct (Qle_bool (two_pow (ln - ld)) a) eqn:Hc.
  - apply Qle_bool_iff in Hc. done.
  - split; [done|]. replace (ln - ld - 1 + 1)%Z with (ln - ld)%Z by lia.
    apply Qnot_le_lt. intros H. apply Qle_bool_iff in H. congruence.
Qed.

Lemma ilog2_mono (a b : Q) : 0 < a → a <= b → (ilog2 a ≤ ilog2 b)%Z.
Proof.
  intros Ha Hab.
  destruct (ilog2_spec a Ha) as [Ha1 _].
  destruct (ilog2_spec b) as [_ Hb2]; [lra|].
  destruct (Z_le_gt_dec (ilog2 a) (ilog2 b)) as [|Hgt]; [done|].
  assert (H : two_pow (ilog2 b + 1) <= two_pow (ilog2 a)) by (apply two_pow_mono; lia).
  lra.
Qed.

Lemma ulp_exp_mono (a b : Q) : 0 < a → a <= b → (ulp_exp a ≤ ulp_exp b)%Z.
Proof. intros Ha Hab. unfold ulp_exp. pose proof (ilog2_mono a b Ha Hab). lia. Qed.

Lemma div_two_pow_le (a b : Q) (e : Z) : a <= b → a / two_pow e <= b / two_pow e.
Proof.
  intros H. unfold Qdiv. apply Qmult_le_compat_r; [done|].
  apply Qlt_le_weak, Qinv_lt_0_compat, two_pow_pos.
Qed.

Lemma nearest_nonneg (a : Q) : 0 <= a → 0 <= nearest a.
Proof.
  intros Ha. unfold nearest. apply Qmult_le_0_compat.
  - assert (H : (0 ≤ round_half_even (a / two_pow (ulp_exp a)))%Z).
    { apply round_half_even_ge_Z.
      change (inject_Z 0) with 0. apply Qle_shift_div_l; [apply two_pow_pos | lra]. }
    rewrite Zle_Qle in H. exact H.
  - apply Qlt_le_weak, two_pow_pos.
Qed.

(** below the next binade *)
Lemma nearest_upper (a : Q) : 0 < a → nearest a <= two_pow (ulp_exp a + 53).
Proof.
  intros Ha. unfold nearest. set (e := ulp_exp a).
  destruct (ilog2_spec a Ha) as [_ Hup].
  assert (He : (ilog2 a + 1 ≤ e + 53)%Z) by (subst e; unfold ulp_exp; lia).
  pose proof (two_pow_mono _ _ He) as Hpow.
  rewrite two_pow_plus. rewrite (Qmult_comm (two_pow e)).
  apply Qmult_le_compat_r; [|apply Qlt_le_weak, two_pow_pos].
  rewrite (two_pow_Z 53), <- Zle_Qle by lia. apply round_half_even_le_Z.
  rewrite <- two_pow_Z by lia. apply Qle_shift_div_r; [apply two_pow_pos|].
  rewrite <- two_pow_plus, (Z.add_comm 53). lra.
Qed.

(** at least the start of its binade, for a normal number *)
Lemma nearest_lower (a : Q) :
  0 < a → (-1074 < ulp_exp a)%Z → two_pow (ulp_exp a + 52) <= nearest a.
Proof.
  intros Ha Hnormal. unfold nearest. set (e := ulp_exp a) in *.
  destruct (ilog2_spec a Ha) as [Hlow _].
  assert (He : (ilog2 a = e + 52)%Z) by (subst e; unfold ulp_exp in *; lia).
  rewrite He in Hlow.
  rewrite two_pow_plus. rewrite (Qmult_comm (two_pow e)).
  apply Qmult_le_compat_r; [|apply Qlt_le_weak, two_pow_pos].
  rewrite (two_pow_Z 52), <- Zle_Qle by lia. apply round_half_even_ge_Z.
  rewrite <- two_pow_Z by lia. apply Qle_shift_div_l; [apply two_pow_pos|].
  rewrite <- two_pow_plus, (Z.add_comm 52). lra.
Qed.

Lemma nearest_mono (a b : Q) : 0 < a → a <= b → nearest a <= nearest b.
Proof.
  intros Ha Hab. pose proof (ulp_exp_mono a b Ha Hab) as He.
  destruct (Z.eq_dec (ulp_exp a) (ulp_exp b)) as [Heq|Hne].
  - unfold nearest. rewrite Heq.
    apply Qmult_le_compat_r; [|apply Qlt_le_weak, two_pow_pos].
    rewrite <- Zle_Qle. apply round_half_even_mono. by apply div_two_pow_le.
  - eapply Qle_trans; [by apply nearest_upper|].
    eapply Qle_trans; [|apply nearest_lower]; [|lra|].
    + apply two_pow_mono. lia.
    + unfold ulp_exp in *. lia.
Qed.

Lemma nearest_comp (a b : Q) : 0 < a → a == b → nearest a == nearest b.
Proof. intros Ha Hab. apply Qle_antisym; apply nearest_mono; lra. Qed.

Lemma rnd_cases (q : Q) :
  0 <= q →
  (rnd q = PosInf ∧ 0 < q ∧ two_pow 1024 <= nearest q)
  ∨ (∃ v, rnd q = Finite v ∧ 0 <= v
          ∧ (q == 0 ∧ v == 0 ∨ 0 < q ∧ v == nearest q ∧ nearest q < two_pow 1024)).
Proof.
  intros Hq. unfold rnd. destruct (Qcompare_spec q 0) as [H|H|H]; [|lra|].
  - right. exists 0. split; [done|]. split; [lra|]. left. split; [done|reflexivity].
  - destruct (Qle_bool (two_pow 1024) (nearest q)) eqn:Hov.
    + left. apply Qle_bool_iff in Hov. done.
    + right. exists (Qred (nearest q)). split; [done|].
      pose proof (nearest_nonneg q Hq). rewrite Qred_correct. split; [done|].
      right. split; [done|]. split; [reflexivity|].
      apply Qnot_le_lt. intros Hle. apply Qle_bool_iff in Hle. congruence.
Qed.

Lemma rnd_nonneg (q : Q) : 0 <= q → nonneg (rnd q).
Proof.
  intros Hq. unfold nonneg, zero.
  destruct (rnd_cases q Hq) as [[-> _]|(v & -> & Hv & _)]; [done|].
  by apply Qle_bool_iff.
Qed.

Lemma rnd_mono (p q : Q) : 0 <= p → p <= q → le (rnd p) (rnd q).
Proof.
  intros Hp Hpq. assert (Hq : 0 <= q) by lra. unfold le.
  destruct (rnd_cases q Hq) as [(-> & _ & Hov)|(v & -> & Hv & Hcase)].
  - destruct (rnd_cases p Hp) as [[-> _]|(u & -> & _)]; done.
  - destruct (rnd_cases p Hp) as [(-> & Hp0 & Hov)|(u & -> & Hu & Hcase')].
    + exfalso. destruct Hcase as [[Hq0 _]|(Hq0 & _ & Hfin)]; [lra|].
      pose proof (nearest_mono p q Hp0 Hpq). lra.
    + apply Qle_bool_iff.
      destruct Hcase' as [[_ ->]|(Hp0 & -> & _)]; [done|].
      destruct Hcase as [[Hq0 _]|(Hq0 & -> & _)]; [lra|].
      by apply nearest_mono.
Qed.

Lemma nonneg_cases (x : f64) :
  nonneg x ↔ x = PosInf ∨ ∃ q, x = Finite q ∧ 0 <= q.
Proof.
  unfold nonneg, zero. destruct x as [q| | |]; cbn.
  - rewrite Qle_bool_iff. split; [eauto|]. by intros [|(? & [= <-] & ?)].
  - split; auto.
  - split; [done|]. by intros [|(? & ? & ?)].
  - split; [done|]. by intros [|(? & ? & ?)].
Qed.

Lemma le_refl_nonneg (x : f64) : nonneg x → le x x.
Proof.
  intros [->|(q & -> & Hq)]%nonneg_cases; [done|]. apply Qle_bool_iff. lra.
Qed.

Lemma le_trans (x y z : f64) : le x y → le y z → le x z.
Proof.
  unfold le. destruct x as [a| | |], y as [b| | |], z as [c| | |]; cbn; try done.
  rewrite !Qle_bool_iff. apply Qle_trans.
Qed.

Lemma nonneg_le (x y : f64) : nonneg x → le x y → nonneg y.
Proof. apply le_trans. Qed.

Lemma add_nonneg (x y : f64) : nonneg x → nonneg y → nonneg (add x y).
Proof.
  intros [->|(a & -> & Ha)]%nonneg_cases [->|(b & -> & Hb)]%nonneg_cases; try done.
  cbn. apply rnd_nonneg. lra.
Qed.

Lemma add_mono (x x' y y' : f64) :
  nonneg x → nonneg y → le x x' → le y y' → le (add x y) (add x' y').
Proof.
  intros Hx Hy Hxx Hyy.
  pose proof (nonneg_le _ _ Hx Hxx) as Hx'. pose proof (nonneg_le _ _ Hy Hyy) as Hy'.
  apply nonneg_cases in Hx as [->|(a & -> & Ha)];
    apply nonneg_cases in Hy as [->|(b & -> & Hb)];
    apply nonneg_cases in Hx' as [->|(a' & -> & Ha')];
    apply nonneg_cases in Hy' as [->|(b' & -> & Hb')]; try done; cbn.
  - pose proof (rnd_nonneg (a + b)) as H. apply nonneg_cases in H as [->|(c & -> & _)];
      [done|done|lra].
  - pose proof (rnd_nonneg (a + b)) as H. apply nonneg_cases in H as [->|(c & -> & _)];
      [done|done|lra].
  - pose proof (rnd_nonneg (a + b)) as H. apply nonneg_cases in H as [->|(c & -> & _)];
      [done|done|lra].
  - unfold le in Hxx, Hyy. cbn in Hxx, Hyy. apply Qle_bool_iff in Hxx, Hyy.
    apply rnd_mono; lra.
Qed.

Lemma mul_nonneg_or_nan (b : Q) (k : nat) :
  0 <= b → nonneg_or_nan (mul (Finite b) (of_nat k)).
Proof.
  intros Hb. unfold of_nat.
  assert (Hk : 0 <= inject_Z (Z.of_nat k)) by (rewrite <- (Zle_Qle 0); lia).
  destruct (rnd_cases _ Hk) as [(-> & _)|(v & -> & Hv & _)]; cbn.
  - unfold inf_times. destruct (Qcompare_spec b 0); [by right|lra|by left].
  - left. apply rnd_nonneg. by apply Qmult_le_0_compat.
Qed.

Lemma add_nonneg_or_nan (x y : f64) :
  nonneg_or_nan x → nonneg_or_nan y → nonneg_or_nan (add x y).
Proof.
  intros [Hx| ->] [Hy| ->].
  - left. by apply add_nonneg.
  - right. by destruct x.
  - by right.
  - by right.
Qed.

End F64Facts.

(** ** Clamping and rounding the score *)

Section Confidence.

Import F64 F64Facts.
Local Open Scope Q_scope.

Lemma py_min1_unit (score : f64) :
  nonneg_or_nan score → ∃ c, py_min1 score = Finite c ∧ 0 <= c <= 1.
Proof.
  unfold py_min1, one. intros [[->|(q & -> & Hq)]%nonneg_cases| ->]; cbn.
  - exists 1. split; [done|lra].
  - destruct (Qle_bool 1 q) eqn:E; cbn.
    + exists 1. split; [done|lra].
    + exists q. split; [done|]. split; [done|].
      apply Qlt_le_weak, Qnot_le_lt. intros H. apply Qle_bool_iff in H. congruence.
  - exists 1. split; [done|lra].
Qed.

Lemma py_min1_mono (x y : f64) : nonneg x → le x y → le (py_min1 x) (py_min1 y).
Proof.
  intros Hx Hxy. pose proof (nonneg_le _ _ Hx Hxy) as Hy.
  apply nonneg_cases in Hx as [->|(a & -> & Ha)];
    apply nonneg_cases in Hy as [->|(b & -> & Hb)]; try done.
  - unfold py_min1, one. cbn. destruct (Qle_bool 1 a) eqn:E; cbn; [done|].
    apply Qle_bool_iff, Qlt_le_weak, Qnot_le_lt. intros H.
    apply Qle_bool_iff in H. congruence.
  - unfold le in Hxy. cbn in Hxy. apply Qle_bool_iff in Hxy.
    unfold py_min1, one. cbn.
    destruct (Qle_bool 1 a) eqn:Ea; destruct (Qle_bool 1 b) eqn:Eb; cbn;
      apply Qle_bool_iff; try lra.
    + apply Qle_bool_iff in Ea. apply not_true_iff_false in Eb.
      exfalso. apply Eb, Qle_bool_iff. lra.
    + apply Qlt_le_weak, Qnot_le_lt. intros H. apply Qle_bool_iff in H. congruence.
Qed.

Lemma hundredths_unit (c : Q) :
  0 <= c <= 1 →
  0 <= inject_Z (round_half_even (c * 100)) / 100 <= 1.
Proof.
  intros [H0 H1].
  assert (Hlo : (0 ≤ round_half_even (c * 100))%Z).
  { apply round_half_even_ge_Z. change (inject_Z 0) with 0. lra. }
  assert (Hhi : (round_half_even (c * 100) ≤ 100)%Z).
  { apply round_half_even_le_Z. change (inject_Z 100) with 100. lra. }
  rewrite Zle_Qle in Hlo, Hhi. change (inject_Z 0) with 0 in Hlo.
  change (inject_Z 100) with 100 in Hhi.
  unfold Qdiv. change (/ 100) with (1 # 100). lra.
Qed.

Lemma hundredths_mono (c c' : Q) :
  c <= c' →
  inject_Z (round_half_even (c * 100)) / 100
  <= inject_Z (round_half_even (c' * 100)) / 100.
Proof.
  intros H.
  assert (Hz : (round_half_even (c * 100) ≤ round_half_even (c' * 100))%Z).
  { apply round_half_even_mono. lra. }
  rewrite Zle_Qle in Hz. unfold Qdiv. by apply Qmult_le_compat_r.
Qed.

Lemma hundredths_close (c : Q) :
  c - (1 # 200) <= inject_Z (round_half_even (c * 100)) / 100 <= c + (1 # 200).
Proof.
  pose proof (round_half_even_close (c * 100)) as [H1 H2].
  unfold Qdiv. change (/ 100) with (1 # 100). lra.
Qed.

Lemma py_round2_mono (c c' : Q) :
  0 <= c → c <= c' → le (py_round2 (Finite c)) (py_round2 (Finite c')).
Proof.
  intros H0 H. cbn [py_round2]. apply rnd_mono; [|by apply hundredths_mono].
  assert (Hlo : (0 ≤ round_half_even (c * 100))%Z).
  { apply round_half_even_ge_Z. change (inject_Z 0) with 0. lra. }
  rewrite Zle_Qle in Hlo. change (inject_Z 0) with 0 in Hlo.
  unfold Qdiv. change (/ 100) with (1 # 100). lra.
Qed.

Lemma py_round2_unit (c : Q) :
  0 <= c <= 1 →
  leb zero (py_round2 (Finite c)) = true ∧ leb (py_round2 (Finite c)) one = true.
Proof.
  intros Hc. destruct (hundredths_unit c Hc) as [Hlo Hhi]. cbn [py_round2]. split.
  - by apply rnd_nonneg.
  - assert (E : rnd 1 = one) by (vm_compute; reflexivity).
    rewrite <- E. by apply rnd_mono.
Qed.

Lemma py_round2_half_le (c : Q) :
  0 <= c → c <= 1 # 2 → leb (py_round2 (Finite c)) half = true.
Proof.
  intros H0 H. assert (E : py_round2 (Finite (1 # 2)) = half) by (vm_compute; reflexivity).
  rewrite <- E. by apply py_round2_mono.
Qed.

Lemma py_round2_half_ge (c : Q) : 1 # 2 <= c → leb half (py_round2 (Finite c)) = true.
Proof.
  intros H. assert (E : py_round2 (Finite (1 # 2)) = half) by (vm_compute; reflexivity).
  rewrite <- E. apply py_round2_mono; lra.
Qed.

Lemma ltb_leb_false (x y : f64) : leb x y = true → ltb y x = false.
Proof.
  destruct x as [a| | |], y as [b| | |]; cbn; try done. by intros ->.
Qed.

Lemma ltb_Finite (a b : Q) : ltb (Finite a) (Finite b) = true ↔ a < b.
Proof.
  cbn. rewrite negb_true_iff, <- not_true_iff_false, Qle_bool_iff.
  split; [apply Qnot_le_lt | apply Qlt_not_le].
Qed.

End Confidence.

(** ** Scores *)

Section Scores.

Import F64 F64Facts.
Variable d : gmap string value.

Lemma finite_nonneg_nonneg (x : f64) : finite_nonneg x → nonneg x.
Proof. destruct x as [q| | |]; cbn; try done. apply Qle_bool_iff. Qed.

Lemma solo_score_nonneg (items : list (string * Standalone.rule)) :
  (∀ item, item ∈ items → finite_nonneg (Standalone.base_score item.2)) →
  ∀ s0, nonneg s0 → nonneg (solo_score d items s0).
Proof.
  induction items as [|item items IH]; intros Hpos s0 Hs0; [done|].
  unfold solo_score. cbn [fold_left]. fold (solo_score d items).
  assert (IH' := IH (λ it Hit, Hpos it (list_elem_of_further _ _ _ Hit))).
  destruct (solo_hit d item); [|by apply IH'].
  apply IH', add_nonneg; [done|]. apply finite_nonneg_nonneg, Hpos. left.
Qed.

Lemma combo_contribution_ok (rule : Combinatorial.rule) :
  finite_nonneg (Combinatorial.base_score rule) →
  nonneg_or_nan (combo_contribution d rule).
Proof.
  unfold combo_contribution. destruct (Combinatorial.base_score rule) as [b| | |];
    cbn [finite_nonneg]; try done.
  apply mul_nonneg_or_nan.
Qed.

Lemma combo_score_ok (items : list (string * Combinatorial.rule)) :
  (∀ item, item ∈ items → finite_nonneg (Combinatorial.base_score item.2)) →
  ∀ s0, nonneg_or_nan s0 → nonneg_or_nan (combo_score d items s0).
Proof.
  induction items as [|item items IH]; intros Hpos s0 Hs0; [done|].
  unfold combo_score. cbn [fold_left]. fold (combo_score d items).
  assert (IH' := IH (λ it Hit, Hpos it (list_elem_of_further _ _ _ Hit))).
  destruct (combo_hit d item.2); [|by apply IH'].
  apply IH', add_nonneg_or_nan; [done|]. apply combo_contribution_ok, Hpos. left.
Qed.

Lemma running_total_ok (conf : Catalog) :
  scores_nonneg conf → nonneg_or_nan (running_total d conf).
Proof.
  intros [Hs Hc]. unfold running_total. apply combo_score_ok; [done|].
  left. by apply solo_score_nonneg.
Qed.

Lemma solo_score_no_hit (items : list (string * Standalone.rule)) (s0 : f64) :
  (∀ item, item ∈ items → solo_hit d item = false) → solo_score d items s0 = s0.
Proof.
  revert s0. induction items as [|item items IH]; intros s0 Hmiss; [done|].
  unfold solo_score. cbn [fold_left]. fold (solo_score d items).
  rewrite (Hmiss item) by left. apply IH. intros it Hit. apply Hmiss. by right.
Qed.

(** two runs of the combinatorial pass over the same contributions, the
    second from a score at least as high *)
Lemma combo_score_ordered (items : list (string * Combinatorial.rule)) :
  (∀ item, item ∈ items → finite_nonneg (Combinatorial.base_score item.2)) →
  ∀ s s', ordered s s' → ordered (combo_score d items s) (combo_score d items s').
Proof.
  induction items as [|item items IH]; intros Hpos s s' Hord; [done|].
  unfold combo_score. cbn [fold_left]. fold (combo_score d items).
  assert (IH' := IH (λ it Hit, Hpos it (list_elem_of_further _ _ _ Hit))).
  destruct (combo_hit d item.2); [|by apply IH'].
  apply IH'.
  destruct (combo_contribution_ok item.2 (Hpos item ltac:(left))) as [Hc|Hc].
  - destruct Hord as [[Hs Hle]|[-> ->]]; [|by right].
    left. split; [by apply add_nonneg|].
    apply add_mono; try done. by apply le_refl_nonneg.
  - rewrite Hc. right. split; [by destruct s | by destruct s'].
Qed.

End Scores.

(** ** The sanitized record *)

Section Sanitized.

Variable d : gmap string value.

Lemma dom_insert_present (sd : gmap string value) (k : string) (v : value) :
  is_Some (d !! k) → dom sd = dom d → dom (<[k := v]> sd) = dom d.
Proof.
  intros Hk%elem_of_dom Hdom. rewrite dom_insert_L, Hdom.
  apply set_eq. intros x. rewrite elem_of_union, elem_of_singleton.
  split; [intros [->|?]|]; auto.
Qed.

Lemma solo_redact_dom (sd : gmap string value) (item : string * Standalone.rule) :
  dom sd = dom d → dom (solo_redact d sd item) = dom d.
Proof.
  intros Hdom. unfold solo_redact. destruct (d !! item.1) eqn:Hk; [|done].
  destruct (solo_hit d item); [|done]. apply dom_insert_present; eauto.
Qed.

Lemma solo_fold_dom (items : list (string * Standalone.rule)) (sd : gmap string value) :
  dom sd = dom d → dom (fold_left (solo_redact d) items sd) = dom d.
Proof.
  revert sd. induction items as [|item items IH]; intros sd Hdom; [done|].
  cbn [fold_left]. by apply IH, solo_redact_dom.
Qed.

Lemma solo_redact_lookup (sd : gmap string value) (item : string * Standalone.rule)
    (k : string) :
  k ≠ item.1 ∨ solo_hit d item = false → solo_redact d sd item !! k = sd !! k.
Proof.
  intros H. unfold solo_redact. destruct (d !! item.1); [|done].
  destruct (solo_hit d item) eqn:Hhit; [|done].
  destruct H as [H|H]; [|done]. by rewrite lookup_insert_ne.
Qed.

Lemma solo_fold_lookup (items : list (string * Standalone.rule))
    (sd : gmap string value) (k : string) :
  (∀ rule, (k, rule) ∈ items → solo_hit d (k, rule) = false) →
  fold_left (solo_redact d) items sd !! k = sd !! k.
Proof.
  revert sd. induction items as [|item items IH]; intros sd Hmiss; [done|].
  cbn [fold_left]. rewrite IH by (intros rule Hin; apply Hmiss; by right).
  apply solo_redact_lookup. destruct item as [k' rule].
  destruct (decide (k = k')) as [->|Hne]; [right|by left].
  apply Hmiss. left.
Qed.

Variable conf : Catalog.

Lemma placeholder_redact_dom (sd : gmap string value) (key : string) :
  is_Some (d !! key) → dom sd = dom d → dom (placeholder_redact d conf sd key) = dom d.
Proof.
  intros Hk Hdom. unfold placeholder_redact.
  destruct (redaction_placeholders conf !! key) as [mask|]; [|done].
  destruct (assoc mask _get_redactors).
  - destruct Hk as [v Hv]. rewrite Hv. apply dom_insert_present; eauto.
  - destruct (String.eqb mask ""); [done|]. by apply dom_insert_present.
Qed.

Lemma placeholder_fold_dom (ks : list string) (sd : gmap string value) :
  (∀ k, k ∈ ks → is_Some (d !! k)) →
  dom sd = dom d → dom (fold_left (placeholder_redact d conf) ks sd) = dom d.
Proof.
  revert sd. induction ks as [|k ks IH]; intros sd Hks Hdom; [done|].
  cbn [fold_left]. apply IH; [intros ? ?; apply Hks; by right|].
  apply placeholder_redact_dom; [apply Hks; left | done].
Qed.

Lemma placeholder_redact_lookup_ne (sd : gmap string value) (key k : string) :
  k ≠ key → placeholder_redact d conf sd key !! k = sd !! k.
Proof.
  intros Hne. unfold placeholder_redact.
  destruct (redaction_placeholders conf !! key) as [mask|]; [|done].
  destruct (assoc mask _get_redactors).
  - destruct (d !! key); [|done]. by rewrite lookup_insert_ne.
  - destruct (String.eqb mask ""); [done|]. by rewrite lookup_insert_ne.
Qed.

Lemma placeholder_redact_congr (sd sd' : gmap string value) (key : string) :
  sd !! key = sd' !! key →
  placeholder_redact d conf sd key !! key = placeholder_redact d conf sd' key !! key.
Proof.
  intros H. unfold placeholder_redact.
  destruct (redaction_placeholders conf !! key) as [mask|]; [|done].
  destruct (assoc mask _get_redactors).
  - destruct (d !! key); [|done]. by rewrite !lookup_insert_eq.
  - destruct (String.eqb mask ""); [done|]. by rewrite !lookup_insert_eq.
Qed.

Lemma placeholder_fold_notin (ks : list string) (sd : gmap string value) (k : string) :
  k ∉ ks → fold_left (placeholder_redact d conf) ks sd !! k = sd !! k.
Proof.
  revert sd. induction ks as [|x ks IH]; intros sd Hk; [done|].
  apply not_elem_of_cons in Hk as [Hne Hk]. cbn [fold_left].
  rewrite IH by done. by apply placeholder_redact_lookup_ne.
Qed.

Lemma placeholder_fold_in (ks : list string) (sd : gmap string value) (k : string) :
  NoDup ks → k ∈ ks →
  fold_left (placeholder_redact d conf) ks sd !! k
  = placeholder_redact d conf sd k !! k.
Proof.
  revert sd. induction ks as [|x ks IH]; intros sd Hnd Hk; [by apply elem_of_nil in Hk|].
  apply NoDup_cons in Hnd as [Hx Hnd]. cbn [fold_left].
  destruct (decide (k = x)) as [->|Hne].
  - by apply placeholder_fold_notin.
  - apply elem_of_cons in Hk as [?|Hk]; [done|].
    rewrite IH by done. apply placeholder_redact_congr.
    by apply placeholder_redact_lookup_ne.
Qed.

Lemma sanitized_dom : dom (sanitized d conf) = dom d.
Proof.
  unfold sanitized. apply placeholder_fold_dom.
  - intros k Hk%elem_of_elements. by apply (pending_present d conf).
  - by apply solo_fold_dom.
Qed.

Lemma sanitized_lookup_pending (k : string) :
  k ∈ pending d conf →
  sanitized d conf !! k
  = placeholder_redact d conf (after_standalone d conf) k !! k.
Proof.
  intros Hk. unfold sanitized. apply placeholder_fold_in.
  - apply NoDup_elements.
  - by apply elem_of_elements.
Qed.

Lemma sanitized_lookup_other (k : string) :
  k ∉ pending d conf → sanitized d conf !! k = after_standalone d conf !! k.
Proof.
  intros Hk. unfold sanitized. apply placeholder_fold_notin.
  by rewrite elem_of_elements.
Qed.

End Sanitized.

(** ** Records with the same fields *)

Section SameFields.

Variables d d' : gmap string value.
Hypothesis Hdom : dom d' = dom d.

Lemma keys_found_dom (ks : list string) : keys_found d' ks = keys_found d ks.
Proof.
  unfold keys_found. induction ks as [|k ks IH]; [done|]. cbn [List.filter].
  rewrite IH. erewrite bool_decide_ext; [done|].
  by rewrite <- !elem_of_dom, Hdom.
Qed.

Lemma combo_score_dom (items : list (string * Combinatorial.rule)) (s0 : f64) :
  combo_score d' items s0 = combo_score d items s0.
Proof.
  revert s0. induction items as [|item items IH]; intros s0; [done|].
  unfold combo_score. cbn [fold_left]. fold (combo_score d items) (combo_score d' items).
  unfold combo_hit, combo_contribution. rewrite keys_found_dom. apply IH.
Qed.

End SameFields.

(** ** The sample catalog is well formed *)

Ltac each_item H :=
  repeat (apply elem_of_cons in H as [->|H]); [..|by apply elem_of_nil in H].

Lemma sample_valid : catalog_valid Sample.catalog.
Proof. intros item H. each_item H; by eexists. Qed.

Lemma sample_nonneg : scores_nonneg Sample.catalog.
Proof. split; intros item H; each_item H; cbn; discriminate. Qed.

Lemma sample_person_at : w_heap Sample.w_person !! Sample.rec = Some Sample.person.
Proof. reflexivity. Qed.

Lemma sample_contact_at : w_heap Sample.w_contact !! Sample.rec = Some Sample.contact.
Proof. reflexivity. Qed.

Lemma sample_pending :
  elements (pending Sample.person Sample.catalog) = ["city"; "first_name"; "last_name"].
Proof. vm_compute. reflexivity. Qed.

Lemma sample_pending_elem (k : string) :
  k ∈ ["city"; "first_name"; "last_name"] ↔ k ∈ pending Sample.person Sample.catalog.
Proof. rewrite <- elem_of_elements. by rewrite sample_pending. Qed.


(** * The claims *)

(** C6: [mask_string] returns exactly "****" for a value that is not a string
    and for a string of fewer than 5 characters (the empty one included); a
    string of n >= 5 characters becomes its first 2 characters, n-4 times
    'X', and its last 2 characters, of the same total length; "password123"
    becomes "paXXXXXXX23". *)
Theorem mask_string_spec :
  (∀ v, isinstance_str v = false → _mask_str v = "****")
  ∧ (∀ s, (String.length s < 5)%nat → _mask_str (VStr s) = "****")
  ∧ _mask_str (VStr "") = "****"
  ∧ (∀ s, (5 ≤ String.length s)%nat →
       _mask_str (VStr s)
       = Str.take 2 s +:+ Str.rep "X" (String.length s - 4)
                      +:+ Str.drop (String.length s - 2) s
       ∧ String.length (_mask_str (VStr s)) = String.length s
       ∧ ∃ a b mid c e,
           s = String a (String b (mid +:+ String c (String e "")))
           ∧ String.length mid = (String.length s - 4)%nat
           ∧ _mask_str (VStr s)
             = String a (String b (Str.rep "X" (String.length mid)
                                   +:+ String c (String e ""))))
  ∧ _mask_str (VStr "password123") = "paXXXXXXX23".
Proof.
  split; [by intros [] | ]. split; [apply mask_str_short|]. split; [done|].
  split; [|done]. intros s Hs.
  split; [by apply mask_str_long|]. split; [by apply mask_str_length|].
  destruct (long_string_shape s Hs) as (a & b & mid & c & e & Hshape & Hmid).
  exists a, b, mid, c, e. split; [done|]. split; [done|].
  rewrite Hshape at 1. apply mask_str_shape. lia.
Qed.

Lemma mask_string_spec_witness :
  (5 ≤ String.length "hello world")%nat
  ∧ String.length (_mask_str (VStr "hello world")) = String.length "hello world".
Proof.
  split; [vm_compute; lia|].
  destruct mask_string_spec as (_ & _ & _ & H & _).
  apply (H "hello world"). vm_compute; lia.
Defined.

(** C5, as the code has it: [mask_email] splits at the first '@'; with an
    '@' it masks the local part with [mask_string] and keeps the domain;
    without one, or for a value that is not a string, it is [mask_string] of
    the value's string form; "jane.doe@example.com" becomes
    "jaXXXXoe@example.com". *)
Theorem mask_email_spec :
  (∀ user domain, Str.mem "@" user = false →
     _mask_mail (VStr (user +:+ String "@" domain))
     = Ret (_mask_str (VStr user) +:+ String "@" domain))
  ∧ (∀ s, Str.mem "@" s = false →
       _mask_mail (VStr s) = Ret (_mask_str (VStr (py_str (VStr s)))))
  ∧ (∀ v, isinstance_str v = false →
       _mask_mail v = Ret (_mask_str (VStr (py_str v))))
  ∧ _mask_mail (VStr "jane.doe@example.com") = Ret "jaXXXXoe@example.com".
Proof.
  split; [apply mask_mail_split|]. split; [apply mask_mail_no_at|].
  split; [apply mask_mail_not_text|done].
Qed.

Lemma mask_email_spec_witness :
  Str.mem "@" "a.b" = false
  ∧ _mask_mail (VStr ("a.b" +:+ String "@" "c@d"))
    = Ret (_mask_str (VStr "a.b") +:+ String "@" "c@d").
Proof.
  split; [reflexivity|].
  destruct mask_email_spec as (H & _). apply (H "a.b" "c@d"). reflexivity.
Defined.

(** C5 as stated fails: the local part "jane.doe" has 8 characters, so 4 of
    them are replaced and the last two, "oe", are kept. *)
Lemma mask_email_example_refuted :
  _mask_mail (VStr "jane.doe@example.com") ≠ Ret "jaXXXXXe@example.com".
Proof. vm_compute. discriminate. Qed.

(** C9: [scan] never mutates the input record nor any other object that
    existed before the call, whatever the outcome; the catalog is left as it
    was; the sanitized record it returns is a new object, distinct from the
    input. *)
Theorem scan_preserves_input (w w' : world) (rec : loc)
    (out : outcome (loc * bool * f64 * string)) :
  scan rec w = (out, w') →
  w_conf w' = w_conf w
  ∧ w_heap w' !! rec = w_heap w !! rec
  ∧ (∀ l, is_Some (w_heap w !! l) → w_heap w' !! l = w_heap w !! l)
  ∧ (∀ safe is_pii confidence reason,
       out = Ret (safe, is_pii, confidence, reason) →
       w_heap w !! safe = None ∧ safe ≠ rec ∧ is_Some (w_heap w' !! safe)).
Proof.
  intros Hrun. destruct (scan_frame _ _ _ _ Hrun) as (Hconf & Hheap & Hnew).
  repeat split; try done; try (by eapply Hnew).
  destruct (w_heap w !! rec) as [d|] eqn:Hrec; [by rewrite Hheap|].
  revert Hrun. unfold scan. rewrite bind_run. unfold dict_copy at 1. rewrite Hrec.
  by intros [= _ <-].
Qed.

Lemma scan_preserves_input_witness :
  ∃ out w', scan Sample.rec Sample.w_person = (out, w')
            ∧ w_conf w' = Sample.catalog
            ∧ w_heap w' !! Sample.rec = Some Sample.person.
Proof.
  exists (scan Sample.rec Sample.w_person).1, (scan Sample.rec Sample.w_person).2.
  assert (Hrun : scan Sample.rec Sample.w_person
                 = ((scan Sample.rec Sample.w_person).1,
                    (scan Sample.rec Sample.w_person).2))
    by apply surjective_pairing.
  destruct (scan_preserves_input _ _ _ _ Hrun) as (Hconf & Hrec & _).
  split; [exact Hrun|]. split; [exact Hconf|]. rewrite Hrec. reflexivity.
Defined.

(** C7: with every standalone redactor a known strategy, [scan] returns a
    result for every record and raises nothing; every strategy returns a
    string for every value; a field that is absent or not a string is skipped
    by the standalone pass, which then changes nothing. *)
Theorem scan_total (w : world) (rec : loc) (d : gmap string value) :
  w_heap w !! rec = Some d →
  catalog_valid (w_conf w) →
  (∃ result w', scan rec w = (Ret result, w'))
  ∧ (∀ name fn v, assoc name _get_redactors = Some fn → ∃ s, fn v = Ret s)
  ∧ (∀ safe sd score log pii_key rule,
       w_heap w !! safe = Some sd →
       (d !! pii_key = None ∨ ∃ v, d !! pii_key = Some v ∧ isinstance_str v = false) →
       standalone_body rec safe (score, log) (pii_key, rule) w = (Ret (score, log), w)).
Proof.
  intros Hrec Hvalid. split; [|split].
  - rewrite (scan_run w rec d Hrec Hvalid). eauto.
  - intros name fn v Hfn. exists (masked name v). by apply redactors_total.
  - intros safe sd score log pii_key rule Hsafe Hskip.
    rewrite (standalone_body_run _ _ _ d sd) by done.
    unfold solo_hit. cbn [fst snd].
    destruct Hskip as [->|(v & -> & Hv)]; [done|]. by destruct v.
Qed.

Lemma scan_total_witness :
  ∃ result w', scan Sample.rec Sample.w_person = (Ret result, w').
Proof.
  apply (scan_total Sample.w_person Sample.rec Sample.person);
    [exact sample_person_at | exact sample_valid].
Defined.





Lemma solo_hit_spec (d : gmap string value) (k : string) (rule : Standalone.rule) :
  solo_hit d (k, rule) = true ↔
  ∃ s, d !! k = Some (VStr s) ∧ Re.fullmatch (Standalone.compiled rule) s = true.
Proof.
  unfold solo_hit. cbn [fst snd]. split.
  - destruct (d !! k) as [[s| | | |]|]; try done. eauto.
  - by intros (s & -> & ->).
Qed.

(** C4, as the code has it: in the sanitized record a scan returns, a field
    of the pending set whose placeholder names a known strategy holds that
    strategy applied to the field's input value; one whose placeholder is
    any other non-empty string holds that string; one without a placeholder
    holds what the standalone pass left there. *)
Theorem pending_redaction_by_placeholder (w : world) (rec : loc)
    (d : gmap string value) :
  w_heap w !! rec = Some d →
  catalog_valid (w_conf w) →
  ∃ safe is_pii confidence reason w' sd,
    scan rec w = (Ret (safe, is_pii, confidence, reason), w')
    ∧ w_heap w' !! safe = Some sd
    ∧ ∀ key v,
        key ∈ pending d (w_conf w) →
        d !! key = Some v →
        (∀ mask fn,
           redaction_placeholders (w_conf w) !! key = Some mask →
           assoc mask _get_redactors = Some fn →
           ∃ out, fn v = Ret out ∧ sd !! key = Some (VStr out))
        ∧ (∀ mask,
             redaction_placeholders (w_conf w) !! key = Some mask →
             assoc mask _get_redactors = None →
             mask ≠ "" →
             sd !! key = Some (VStr mask))
        ∧ (redaction_placeholders (w_conf w) !! key = None →
           sd !! key = after_standalone d (w_conf w) !! key).
Proof.
  intros Hrec Hvalid. do 5 eexists. exists (sanitized d (w_conf w)).
  split; [by apply scan_run|]. cbn [w_heap]. split; [by rewrite lookup_insert_eq|].
  intros key v Hkey Hv. rewrite (sanitized_lookup_pending d _ _ Hkey).
  unfold placeholder_redact. split; [|split].
  - intros mask fn -> Hfn. rewrite Hfn, Hv, lookup_insert_eq.
    exists (masked mask v). split; [by apply redactors_total|done].
  - intros mask -> -> Hne. apply String.eqb_neq in Hne as ->.
    by rewrite lookup_insert_eq.
  - by intros ->.
Qed.

Lemma pending_redaction_by_placeholder_witness :
  ∃ safe is_pii confidence reason w' sd,
    scan Sample.rec Sample.w_person = (Ret (safe, is_pii, confidence, reason), w')
    ∧ w_heap w' !! safe = Some sd
    ∧ sd !! "first_name" = Some (VStr "AlXXXXXer")
    ∧ sd !! "last_name" = Some (VStr "[REDACTED]").
Proof.
  destruct (pending_redaction_by_placeholder Sample.w_person Sample.rec Sample.person
              sample_person_at sample_valid)
    as (safe & is_pii & confidence & reason & w' & sd & Hrun & Hsd & H).
  exists safe, is_pii, confidence, reason, w', sd.
  split; [exact Hrun|]. split; [exact Hsd|]. split.
  - assert (Hfirst : "first_name" ∈ pending Sample.person Sample.catalog)
      by (apply sample_pending_elem; right; left).
    destruct (H "first_name" (VStr "Alexander") Hfirst eq_refl) as (Hs & _).
    destruct (Hs "mask_string" (λ v, mret (_mask_str v)) eq_refl eq_refl)
      as (out & Hfn & Hout).
    injection Hfn as <-. exact Hout.
  - assert (Hlast : "last_name" ∈ pending Sample.person Sample.catalog)
      by (apply sample_pending_elem; right; right; left).
    destruct (H "last_name" (VStr "Smith") Hlast eq_refl) as (_ & Hl & _).
    apply (Hl "[REDACTED]"); [reflexivity | reflexivity | discriminate].
Defined.

(** C4 as stated fails for the empty replacement string: it is not a
    strategy name, and the field keeps its value instead of receiving it. *)
Lemma empty_placeholder_refuted :
  ¬ (∀ (w : world) (rec : loc) (d : gmap string value) safe is_pii confidence reason
       w' sd key mask,
       w_heap w !! rec = Some d →
       catalog_valid (w_conf w) →
       scan rec w = (Ret (safe, is_pii, confidence, reason), w') →
       w_heap w' !! safe = Some sd →
       key ∈ pending d (w_conf w) →
       redaction_placeholders (w_conf w) !! key = Some mask →
       assoc mask _get_redactors = None →
       sd !! key = Some (VStr mask)).
Proof.
  intros H.
  assert (Hcity : "city" ∈ pending Sample.person Sample.catalog)
    by (apply sample_pending_elem; left).
  pose proof (scan_run Sample.w_person Sample.rec Sample.person
                sample_person_at sample_valid) as Hrun.
  specialize (H Sample.w_person Sample.rec Sample.person _ _ _ _ _
                (sanitized Sample.person Sample.catalog) "city" ""
                sample_person_at sample_valid Hrun
                (lookup_insert_eq _ _ _) Hcity eq_refl eq_refl).
  vm_compute in H. discriminate H.
Qed.

(** C10: the sanitized record a scan returns has exactly the fields of the
    input record, and a field that fires no standalone rule and is not in the
    pending set keeps its input value. *)
Theorem sanitized_same_fields (w : world) (rec : loc) (d : gmap string value) :
  w_heap w !! rec = Some d →
  catalog_valid (w_conf w) →
  ∃ safe is_pii confidence reason w' sd,
    scan rec w = (Ret (safe, is_pii, confidence, reason), w')
    ∧ w_heap w' !! safe = Some sd
    ∧ dom sd = dom d
    ∧ ∀ k,
        ¬ (∃ rule s, (k, rule) ∈ standalone_pii_patterns (w_conf w)
                     ∧ d !! k = Some (VStr s)
                     ∧ Re.fullmatch (Standalone.compiled rule) s = true) →
        k ∉ pending d (w_conf w) →
        sd !! k = d !! k.
Proof.
  intros Hrec Hvalid. do 5 eexists. exists (sanitized d (w_conf w)).
  split; [by apply scan_run|]. cbn [w_heap]. split; [by rewrite lookup_insert_eq|].
  split; [apply sanitized_dom|]. intros k Hsolo Hpending.
  rewrite sanitized_lookup_other by done. apply solo_fold_lookup.
  intros rule Hin. apply not_true_is_false. intros (s & Hs & Hm)%solo_hit_spec.
  apply Hsolo. eauto.
Qed.

Lemma sanitized_same_fields_witness :
  ∃ safe is_pii confidence reason w' sd,
    scan Sample.rec Sample.w_person = (Ret (safe, is_pii, confidence, reason), w')
    ∧ w_heap w' !! safe = Some sd
    ∧ dom sd = dom Sample.person
    ∧ sd !! "age" = Some (VInt 41).
Proof.
  destruct (sanitized_same_fields Sample.w_person Sample.rec Sample.person
              sample_person_at sample_valid)
    as (safe & is_pii & confidence & reason & w' & sd & Hrun & Hsd & Hdom & H).
  exists safe, is_pii, confidence, reason, w', sd.
  split; [exact Hrun|]. split; [exact Hsd|]. split; [exact Hdom|].
  rewrite (H "age"); [reflexivity | |].
  - intros (rule & s & Hin & Hs & _). discriminate Hs.
  - intros Hin%sample_pending_elem.
    repeat (apply elem_of_cons in Hin as [Hin|Hin]; [discriminate Hin|]).
    by apply elem_of_nil in Hin.
Defined.

(** C1, as the code has it: with finite base scores that are not below
    zero, the confidence a scan returns is min(1.0, running total) rounded to
    2 decimal places (the binary64 number nearest to the nearest hundredth)
    and lies in [0, 1]; the verdict is taken before the rounding: is_pii is
    true exactly when min(1.0, running total) exceeds 0.5, so a returned
    confidence above 0.5 gives is_pii, and is_pii gives a returned confidence
    of at least 0.5. *)
Theorem scan_confidence_verdict (w : world) (rec : loc) (d : gmap string value) :
  w_heap w !! rec = Some d →
  catalog_valid (w_conf w) →
  scores_nonneg (w_conf w) →
  ∃ safe is_pii confidence reason w',
    scan rec w = (Ret (safe, is_pii, confidence, reason), w')
    ∧ let clamped := py_min1 (running_total d (w_conf w)) in
      confidence = py_round2 clamped
      ∧ (∃ c, clamped = Finite c
              ∧ (0 <= c <= 1)%Q
              ∧ confidence = F64.rnd (inject_Z (round_half_even (c * 100)) / 100)
              ∧ (c - (1 # 200) <= inject_Z (round_half_even (c * 100)) / 100
                 <= c + (1 # 200))%Q)
      ∧ F64.leb F64.zero confidence = true
      ∧ F64.leb confidence F64.one = true
      ∧ (is_pii = true ↔ F64.ltb F64.half clamped = true)
      ∧ (F64.ltb F64.half confidence = true → is_pii = true)
      ∧ (is_pii = true → F64.leb F64.half confidence = true).
Proof.
  intros Hrec Hvalid Hpos. do 5 eexists. split; [by apply scan_run|].
  intros clamped. subst clamped.
  destruct (py_min1_unit _ (running_total_ok d (w_conf w) Hpos)) as (c & Hc & Hunit).
  rewrite Hc.
  destruct (py_round2_unit c Hunit) as [Hlo Hhi].
  split; [done|]. split.
  { exists c. split; [done|]. split; [done|]. split; [done|apply hundredths_close]. }
  split; [done|]. split; [done|]. split; [done|]. split.
  - intros Hconf. destruct (F64.ltb F64.half (Finite c)) eqn:E; [done|].
    exfalso. assert (Hle : (c <= 1 # 2)%Q).
    { apply Qnot_lt_le. intros Hlt. apply (proj2 (ltb_Finite (1 # 2) c)) in Hlt.
      unfold F64.half in E. congruence. }
    pose proof (py_round2_half_le c (proj1 Hunit) Hle) as H.
    apply ltb_leb_false in H. congruence.
  - intros Hpii%ltb_Finite. apply py_round2_half_ge. by apply Qlt_le_weak.
Qed.

Lemma scan_confidence_verdict_witness :
  ∃ safe is_pii confidence reason w',
    scan Sample.rec Sample.w_person = (Ret (safe, is_pii, confidence, reason), w')
    ∧ F64.leb F64.zero confidence = true
    ∧ F64.leb confidence F64.one = true.
Proof.
  destruct (scan_confidence_verdict Sample.w_person Sample.rec Sample.person
              sample_person_at sample_valid sample_nonneg)
    as (safe & is_pii & confidence & reason & w' & Hrun & _ & _ & Hlo & Hhi & _).
  exists safe, is_pii, confidence, reason, w'.
  split; [exact Hrun|]. split; [exact Hlo | exact Hhi].
Defined.

(** C1 as stated fails: a running total of 129/256 = 0.50390625 exceeds 0.5,
    so is_pii is true, while the confidence returned is 0.5. *)
Lemma verdict_on_returned_confidence_refuted :
  ¬ (∀ (w : world) (rec : loc) (d : gmap string value) safe is_pii confidence reason w',
       w_heap w !! rec = Some d →
       catalog_valid (w_conf w) →
       scores_nonneg (w_conf w) →
       scan rec w = (Ret (safe, is_pii, confidence, reason), w') →
       (is_pii = true ↔ F64.ltb F64.half confidence = true)).
Proof.
  intros H.
  pose proof (scan_run Sample.w_contact Sample.rec Sample.contact
                sample_contact_at sample_valid) as Hrun.
  destruct (H Sample.w_contact Sample.rec Sample.contact _ _ _ _ _
              sample_contact_at sample_valid sample_nonneg Hrun) as [Hlt _].
  vm_compute in Hlt. specialize (Hlt eq_refl). discriminate Hlt.
Qed.

(** C8, as the code has it: with finite base scores that are not below zero,
    when no string of the sanitized record a scan returned matches a
    standalone pattern in full, scanning that sanitized record returns a
    confidence no higher than the first scan did. *)
Theorem rescan_confidence_le (w w' : world) (rec safe : loc)
    (d sd : gmap string value) (is_pii : bool) (confidence : f64) (reason : string) :
  w_heap w !! rec = Some d →
  catalog_valid (w_conf w) →
  scores_nonneg (w_conf w) →
  scan rec w = (Ret (safe, is_pii, confidence, reason), w') →
  w_heap w' !! safe = Some sd →
  (∀ k s item, sd !! k = Some (VStr s) →
               item ∈ standalone_pii_patterns (w_conf w) →
               Re.fullmatch (Standalone.compiled item.2) s = false) →
  ∃ safe2 is_pii2 confidence2 reason2 w'',
    scan safe w' = (Ret (safe2, is_pii2, confidence2, reason2), w'')
    ∧ F64.leb confidence2 confidence = true.
Proof.
  intros Hrec Hvalid [Hsolo Hcombo] Hrun Hsd Hclean.
  rewrite (scan_run w rec d Hrec Hvalid) in Hrun.
  injection Hrun as <- _ <- _ <-. cbn [w_heap] in Hsd.
  rewrite lookup_insert_eq in Hsd. injection Hsd as <-.
  set (sd := sanitized d (w_conf w)) in *.
  set (w' := World _ _).
  assert (Hsd : w_heap w' !! fresh (dom (w_heap w)) = Some sd)
    by apply lookup_insert_eq.
  do 5 eexists. split; [by apply (scan_run w' _ sd Hsd)|].
  cbn [w_conf w']. unfold running_total.
  rewrite solo_score_no_hit.
  2:{ intros [k rule] Hin. unfold solo_hit. cbn [fst snd].
      destruct (sd !! k) as [[s| | | |]|] eqn:Hk; try done.
      by apply (Hclean k s (k, rule)). }
  rewrite (combo_score_dom d sd) by apply sanitized_dom.
  set (s1 := solo_score d (standalone_pii_patterns (w_conf w)) F64.zero).
  assert (Hs1 : F64.nonneg s1) by (by apply solo_score_nonneg).
  destruct (combo_score_ordered d _ Hcombo F64.zero s1) as [[Hn Hle]|[-> ->]].
  - by left.
  - pose proof (F64Facts.nonneg_le _ _ Hn Hle) as Hn'.
    pose proof (py_min1_mono _ _ Hn Hle) as Hmin.
    destruct (py_min1_unit _ (or_introl Hn)) as (c & Hc & Hunit).
    destruct (py_min1_unit _ (or_introl Hn')) as (c' & Hc' & Hunit').
    rewrite Hc, Hc' in *. apply py_round2_mono; [apply Hunit|].
    unfold F64.le in Hmin. cbn in Hmin. by apply Qle_bool_iff.
  - vm_compute. reflexivity.
Qed.

Lemma sample_contact_clean (k s : string) (item : string * Standalone.rule) :
  sanitized Sample.contact Sample.catalog !! k = Some (VStr s) →
  item ∈ standalone_pii_patterns Sample.catalog →
  Re.fullmatch (Standalone.compiled item.2) s = false.
Proof.
  intros Hk Hin.
  assert (Hs : s = "jaXXXXoe@example.com").
  { destruct (decide (k = "email")) as [->|Hne].
    - vm_compute in Hk. by injection Hk.
    - assert (Hnone : sanitized Sample.contact Sample.catalog !! k = None).
      { apply not_elem_of_dom. rewrite sanitized_dom. unfold Sample.contact.
        rewrite dom_singleton_L. intros Hk'%elem_of_singleton. exact (Hne Hk'). }
      rewrite Hnone in Hk. discriminate Hk. }
  subst s.
  apply (proj1 (Forall_forall
                  (λ it : string * Standalone.rule,
                     Re.fullmatch (Standalone.compiled it.2) "jaXXXXoe@example.com"
                     = false)
                  (standalone_pii_patterns Sample.catalog))); [|exact Hin].
  unfold Sample.catalog. cbn [standalone_pii_patterns].
  repeat (constructor; [vm_compute; reflexivity|]). constructor.
Qed.

Lemma rescan_confidence_le_witness :
  ∃ safe2 is_pii2 confidence2 reason2 w'',
    scan (fresh (dom (w_heap Sample.w_contact)))
      (World Sample.catalog
         (<[fresh (dom (w_heap Sample.w_contact)) :=
              sanitized Sample.contact Sample.catalog]> (w_heap Sample.w_contact)))
    = (Ret (safe2, is_pii2, confidence2, reason2), w'')
    ∧ F64.leb confidence2
        (py_round2 (py_min1 (running_total Sample.contact Sample.catalog))) = true.
Proof.
  eapply (rescan_confidence_le Sample.w_contact _ Sample.rec _ Sample.contact
            (sanitized Sample.contact Sample.catalog)).
  - exact sample_contact_at.
  - exact sample_valid.
  - exact sample_nonneg.
  - exact (scan_run Sample.w_contact Sample.rec Sample.contact
             sample_contact_at sample_valid).
  - apply lookup_insert_eq.
  - exact sample_contact_clean.
Defined.

Lemma neg_valid : catalog_valid Sample2.neg_catalog.
Proof.
  intros item Hin. unfold Sample2.neg_catalog in Hin.
  cbn [standalone_pii_patterns] in Hin.
  apply elem_of_cons in Hin as [->|Hin]; [vm_compute; eexists; reflexivity|].
  apply elem_of_nil in Hin. destruct Hin.
Qed.

Lemma neg_named_at : w_heap Sample2.w_neg !! Sample.rec = Some Sample2.named.
Proof. apply lookup_insert_eq. Qed.

Lemma neg_sanitized (k s : string) :
  sanitized Sample2.named Sample2.neg_catalog !! k = Some (VStr s) →
  s = "jaXXXXoe@example.com" ∨ s = "Jane" ∨ s = "Doe".
Proof.
  assert (E : sanitized Sample2.named Sample2.neg_catalog
              = <["email" := VStr "jaXXXXoe@example.com"]>
                  (<["first_name" := VStr "Jane"]>
                     (<["last_name" := VStr "Doe"]> ∅)))
    by (vm_compute; reflexivity).
  rewrite E. clear E. intros Hk.
  apply lookup_insert_Some in Hk as [[_ Hk]|[_ Hk]]; [left; congruence|].
  apply lookup_insert_Some in Hk as [[_ Hk]|[_ Hk]]; [right; left; congruence|].
  apply lookup_insert_Some in Hk as [[_ Hk]|[_ Hk]]; [right; right; congruence|].
  rewrite lookup_empty in Hk. discriminate Hk.
Qed.

Lemma neg_clean (k s : string) (item : string * Standalone.rule) :
  sanitized Sample2.named Sample2.neg_catalog !! k = Some (VStr s) →
  item ∈ standalone_pii_patterns Sample2.neg_catalog →
  Re.fullmatch (Standalone.compiled item.2) s = false.
Proof.
  intros Hk Hin. unfold Sample2.neg_catalog in Hin.
  cbn [standalone_pii_patterns] in Hin.
  apply elem_of_cons in Hin as [->|Hin];
    [|apply elem_of_nil in Hin; destruct Hin].
  destruct (neg_sanitized k s Hk) as [->|[->| ->]]; vm_compute; reflexivity.
Qed.

(** C8 as stated fails when a base score is below zero: with the email rule
    at -0.5 and the name pair at 0.25 for each field, the record scores
    -0.5 + 0.5, a confidence of 0.0; its sanitized copy has no email match
    left and scores 0.5. *)
Lemma rescan_with_negative_score_refuted :
  ¬ (∀ (w w' : world) (rec safe : loc) (d sd : gmap string value)
       (is_pii : bool) (confidence : f64) (reason : string),
       w_heap w !! rec = Some d →
       catalog_valid (w_conf w) →
       scan rec w = (Ret (safe, is_pii, confidence, reason), w') →
       w_heap w' !! safe = Some sd →
       (∀ k s item, sd !! k = Some (VStr s) →
                    item ∈ standalone_pii_patterns (w_conf w) →
                    Re.fullmatch (Standalone.compiled item.2) s = false) →
       ∃ safe2 is_pii2 confidence2 reason2 w'',
         scan safe w' = (Ret (safe2, is_pii2, confidence2, reason2), w'')
         ∧ F64.leb confidence2 confidence = true).
Proof.
  intros H.
  pose proof (scan_run Sample2.w_neg Sample.rec Sample2.named
                neg_named_at neg_valid) as Hrun.
  set (sd := sanitized Sample2.named Sample2.neg_catalog).
  set (safe := fresh (dom (w_heap Sample2.w_neg))) in *.
  set (w' := World Sample2.neg_catalog (<[safe := sd]> (w_heap Sample2.w_neg))).
  assert (Hsd : w_heap w' !! safe = Some sd) by apply lookup_insert_eq.
  destruct (H Sample2.w_neg w' Sample.rec safe Sample2.named sd _ _ _
              neg_named_at neg_valid Hrun Hsd neg_clean)
    as (safe2 & is_pii2 & confidence2 & reason2 & w'' & Hrun2 & Hle).
  rewrite (scan_run w' safe sd Hsd neg_valid) in Hrun2.
  assert (Hc : confidence2 = py_round2 (py_min1 (running_total sd (w_conf w'))))
    by congruence.
  rewrite Hc in Hle. clear - Hle.
  vm_compute in Hle. discriminate Hle.
Qed.

(** ** Binary64 arithmetic on concrete scores *)

(** 0.1 is the double 3602879701896397 / 2^55 *)
Example f64_tenth : F64.of_Q (1 # 10) = Finite (3602879701896397 # 36028797018963968).
Proof. vm_compute. reflexivity. Qed.

(** 0.1 + 0.2 + 0.2 == 0.5 *)
Example f64_tenths_sum_to_half :
  F64.add (F64.add (F64.of_Q (1 # 10)) (F64.of_Q (2 # 10))) (F64.of_Q (2 # 10))
  = F64.half.
Proof. vm_compute. reflexivity. Qed.

(** 0.1 * 3 == 0.30000000000000004, one unit above the double 0.3 *)
Example f64_three_tenths :
  F64.mul (F64.of_Q (1 # 10)) (F64.of_nat 3)
  = Finite (1351079888211149 # 4503599627370496)
  ∧ F64.ltb (F64.of_Q (3 # 10)) (F64.mul (F64.of_Q (1 # 10)) (F64.of_nat 3)) = true.
Proof. vm_compute. split; reflexivity. Qed.

(** 0.5 + 2^-60 == 0.5: a total just above one half in exact terms is one
    half as a double, and the verdict on it is False *)
Example f64_half_absorbs :
  F64.add F64.half (Finite (1 # 1152921504606846976)) = F64.half
  ∧ F64.ltb F64.half (py_min1 (F64.add F64.half (Finite (1 # 1152921504606846976))))
    = false.
Proof. vm_compute. split; reflexivity. Qed.

(** round(2.675, 2) == 2.67: the double 2.675 lies below the decimal *)
Example py_round2_below_tie :
  py_round2 (F64.of_Q (2675 # 1000)) = F64.of_Q (267 # 100).
Proof. vm_compute. reflexivity. Qed.

(** * Further properties of the strategies *)

Lemma mem_app (c : ascii) (s t : string) :
  Str.mem c (s +:+ t) = Str.mem c s || Str.mem c t.
Proof.
  induction s as [|c' s IH]; [done|]. rewrite StrFacts.app_cons. simpl.
  by destruct (Ascii.eqb c' c).
Qed.

Lemma mem_take (c : ascii) (n : nat) (s : string) :
  Str.mem c s = false → Str.mem c (Str.take n s) = false.
Proof.
  revert s. induction n as [|n IH]; intros [|c' s]; simpl; try done.
  destruct (Ascii.eqb c' c); [done|]. apply IH.
Qed.

Lemma mem_drop (c : ascii) (n : nat) (s : string) :
  Str.mem c s = false → Str.mem c (Str.drop n s) = false.
Proof.
  revert s. induction n as [|n IH]; intros [|c' s]; simpl; try done.
  destruct (Ascii.eqb c' c); [done|]. apply IH.
Qed.

Lemma mem_rep (c x : ascii) (n : nat) : Ascii.eqb x c = false → Str.mem c (Str.rep x n) = false.
Proof. intros H. induction n as [|n IH]; simpl; [done|]. by rewrite H. Qed.

Lemma mask_str_no_at (s : string) :
  Str.mem "@" s = false → Str.mem "@" (_mask_str (VStr s)) = false.
Proof.
  intros H. unfold _mask_str. destruct (String.length s <? 5)%nat; [reflexivity|].
  rewrite !mem_app, mem_take, mem_drop, mem_rep by done. reflexivity.
Qed.

Lemma split_at_first (c : ascii) (s : string) :
  Str.mem c s = true →
  ∃ before after, s = before +:+ String c after ∧ Str.mem c before = false.
Proof.
  induction s as [|c' s IH]; simpl; [done|].
  destruct (Ascii.eqb c' c) eqn:E.
  - intros _. apply Ascii.eqb_eq in E as ->. by exists "", s.
  - intros (before & after & -> & Hb)%IH. exists (String c' before), after.
    split; [done|]. simpl. by rewrite E.
Qed.

Lemma mask_str_idem_text (s : string) :
  _mask_str (VStr (_mask_str (VStr s))) = _mask_str (VStr s).
Proof.
  destruct (Nat.lt_ge_cases (String.length s) 5) as [Hshort|Hlong].
  - by rewrite (mask_str_short s Hshort).
  - destruct (long_string_shape s Hlong) as (a & b & mid & c & e & -> & Hmid).
    rewrite mask_str_shape by lia.
    rewrite mask_str_shape by (rewrite StrFacts.length_rep; lia).
    by rewrite StrFacts.length_rep.
Qed.

(** X1: masking is idempotent: [mask_string] applied to its own result
    returns that result, for every value. *)
Theorem mask_string_idempotent (v : value) :
  _mask_str (VStr (_mask_str v)) = _mask_str v.
Proof.
  destruct v as [s| | | |]; try reflexivity. apply mask_str_idem_text.
Qed.

(** X2: [mask_email] is idempotent on strings: masking the string it
    returned gives the same string again. *)
Theorem mask_email_idempotent (s out : string) :
  _mask_mail (VStr s) = Ret out → _mask_mail (VStr out) = Ret out.
Proof.
  destruct (Str.mem "@" s) eqn:Hat.
  - destruct (split_at_first _ _ Hat) as (user & domain & -> & Huser).
    rewrite mask_mail_split by done. intros Hout.
    assert (out = _mask_str (VStr user) +:+ String "@" domain) as -> by congruence.
    rewrite mask_mail_split by (by apply mask_str_no_at).
    by rewrite mask_str_idem_text.
  - rewrite mask_mail_no_at by done. intros Hout.
    assert (out = _mask_str (VStr s)) as -> by congruence.
    rewrite mask_mail_no_at by (by apply mask_str_no_at).
    by rewrite mask_str_idem_text.
Qed.

Lemma mask_email_idempotent_witness :
  _mask_mail (VStr "jane.doe@example.com") = Ret "jaXXXXoe@example.com"
  ∧ _mask_mail (VStr "jaXXXXoe@example.com") = Ret "jaXXXXoe@example.com".
Proof.
  split; [reflexivity|].
  apply (mask_email_idempotent "jane.doe@example.com"). reflexivity.
Defined.

(** X3: on a string without '@' the three strategies return the same mask,
    that of [mask_string]; on a value that is not a string [mask_email] and
    [mask_numeric] agree (they mask its string form) while [mask_string]
    returns "****". *)
Theorem strategies_agree (name : string) (fn : mask_fn) :
  assoc name _get_redactors = Some fn →
  (∀ s, Str.mem "@" s = false → fn (VStr s) = Ret (_mask_str (VStr s)))
  ∧ (∀ v, isinstance_str v = false →
          _mask_mail v = _mask_num v
          ∧ _mask_num v = Ret (_mask_str (VStr (py_str v)))
          ∧ _mask_str v = "****").
Proof.
  intros Hfn. split.
  - intros s Hat. unfold _get_redactors in Hfn. cbn [assoc] in Hfn.
    destruct (String.eqb "mask_string" name); [by injection Hfn as <-|].
    destruct (String.eqb "mask_email" name);
      [injection Hfn as <-; by apply mask_mail_no_at|].
    destruct (String.eqb "mask_numeric" name); [by injection Hfn as <-|].
    discriminate Hfn.
  - intros v Hv. rewrite (mask_mail_not_text v Hv). by destruct v.
Qed.

Lemma strategies_agree_witness :
  _mask_num (VStr "4111111111111111") = Ret (_mask_str (VStr "4111111111111111"))
  ∧ _mask_mail (VInt 1234567) = _mask_num (VInt 1234567).
Proof.
  destruct (strategies_agree "mask_numeric" _mask_num eq_refl) as [Htext Hother].
  split.
  - apply Htext. reflexivity.
  - apply (Hother (VInt 1234567)). reflexivity.
Defined.

(** * Further properties of [scan] *)

(** ** Unknown strategies *)

Lemma standalone_loop_hits (rec safe : loc) (d : gmap string value)
    (items : list (string * Standalone.rule)) :
  rec ≠ safe →
  (∀ item, item ∈ items → solo_hit d item = true →
           is_Some (assoc (Standalone.redactor item.2) _get_redactors)) →
  ∀ (w : world) (sd : gmap string value) (score : f64) (log : list string),
    w_heap w !! rec = Some d →
    w_heap w !! safe = Some sd →
    for_each (standalone_body rec safe) (score, log) items w
    = (Ret (solo_score d items score, solo_log d items log),
       World (w_conf w) (<[safe := fold_left (solo_redact d) items sd]> (w_heap w))).
Proof.
  intros Hne. induction items as [|item items IH]; intros Hvalid w sd score log Hrec Hsafe.
  { cbn. by rewrite world_insert_id. }
  cbn [for_each]. rewrite bind_run.
  rewrite (standalone_body_run _ _ _ d sd) by done.
  unfold solo_score, solo_log. cbn [fold_left].
  destruct (solo_hit d item) eqn:Hhit.
  - destruct (Hvalid item) as [fn ->]; [left|done|].
    rewrite IH with (sd := solo_redact d sd item); cbn [w_conf w_heap].
    + by rewrite insert_insert_eq.
    + intros ? ?. apply Hvalid. by right.
    + by rewrite lookup_insert_ne.
    + by rewrite lookup_insert_eq.
  - rewrite (solo_redact_miss _ _ _ Hhit).
    apply IH; [|done..]. intros ? ?. apply Hvalid. by right.
Qed.

Lemma for_each_app {A B} (body : B → A → M B) (xs ys : list A) (b : B) (w : world) :
  for_each body b (xs ++ ys) w
  = match for_each body b xs w with
    | (Ret b', w') => for_each body b' ys w'
    | (Raise e, w') => (Raise e, w')
    end.
Proof.
  revert b w. induction xs as [|x xs IH]; intros b w; [done|].
  cbn [for_each app]. rewrite !bind_run.
  destruct (body b x w) as [[b'|e] w']; [apply IH|done].
Qed.

Lemma standalone_loop_raise (rec safe : loc) (d sd : gmap string value) (w : world)
    (pre post : list (string * Standalone.rule)) (bad : string * Standalone.rule)
    (score : f64) (log : list string) :
  rec ≠ safe →
  w_heap w !! rec = Some d →
  w_heap w !! safe = Some sd →
  (∀ item, item ∈ pre → solo_hit d item = true →
           is_Some (assoc (Standalone.redactor item.2) _get_redactors)) →
  solo_hit d bad = true →
  assoc (Standalone.redactor bad.2) _get_redactors = None →
  for_each (standalone_body rec safe) (score, log) (pre ++ bad :: post) w
  = (Raise (KeyError (Standalone.redactor bad.2)),
     World (w_conf w) (<[safe := fold_left (solo_redact d) pre sd]> (w_heap w))).
Proof.
  intros Hne Hrec Hsafe Hpre Hhit Hbad. rewrite for_each_app.
  rewrite (standalone_loop_hits rec safe d pre Hne Hpre w sd) by done.
  cbn [for_each]. rewrite bind_run.
  rewrite (standalone_body_run _ _ _ d (fold_left (solo_redact d) pre sd));
    cbn [w_heap w_conf].
  - by rewrite Hhit, Hbad.
  - by rewrite lookup_insert_ne.
  - by rewrite lookup_insert_eq.
Qed.

Lemma first_unknown (d : gmap string value) (items : list (string * Standalone.rule)) :
  (∀ item, item ∈ items → solo_hit d item = true →
           is_Some (assoc (Standalone.redactor item.2) _get_redactors))
  ∨ ∃ pre bad post,
      items = (pre ++ bad :: post)%list
      ∧ (∀ item, item ∈ pre → solo_hit d item = true →
                 is_Some (assoc (Standalone.redactor item.2) _get_redactors))
      ∧ solo_hit d bad = true
      ∧ assoc (Standalone.redactor bad.2) _get_redactors = None.
Proof.
  induction items as [|item items IH].
  { left. by intros ? ?%elem_of_nil. }
  destruct (solo_hit d item) eqn:Hhit.
  - destruct (assoc (Standalone.redactor item.2) _get_redactors) as [fn|] eqn:Hfn.
    + destruct IH as [IH|(pre & bad & post & -> & Hpre & Hb & Hn)].
      * left. intros it [->|Hin]%elem_of_cons ?; [by rewrite Hfn | by apply IH].
      * right. exists (item :: pre), bad, post. repeat split; try done.
        intros it [->|Hin]%elem_of_cons ?; [by rewrite Hfn | by apply Hpre].
    + right. exists [], item, items. repeat split; try done.
      by intros ? ?%elem_of_nil.
  - destruct IH as [IH|(pre & bad & post & -> & Hpre & Hb & Hn)].
    + left. intros it [->|Hin]%elem_of_cons ?; [congruence | by apply IH].
    + right. exists (item :: pre), bad, post. repeat split; try done.
      intros it [->|Hin]%elem_of_cons ?; [congruence | by apply Hpre].
Qed.

Lemma scan_run_hits (w : world) (rec : loc) (d : gmap string value) :
  w_heap w !! rec = Some d →
  hits_valid d (w_conf w) →
  scan rec w
  = (Ret (fresh (dom (w_heap w)),
          F64.ltb F64.half (py_min1 (running_total d (w_conf w))),
          py_round2 (py_min1 (running_total d (w_conf w))),
          rationale d (w_conf w)),
     World (w_conf w)
           (<[fresh (dom (w_heap w)) := sanitized d (w_conf w)]> (w_heap w))).
Proof.
  intros Hrec Hvalid. unfold scan.
  set (safe := fresh (dom (w_heap w))).
  assert (Hfresh : w_heap w !! safe = None).
  { apply not_elem_of_dom, is_fresh. }
  assert (Hne : rec ≠ safe) by congruence.
  rewrite bind_run. unfold dict_copy at 1. rewrite Hrec. fold safe.
  rewrite bind_run. unfold get_conf at 1. cbn [w_conf].
  rewrite bind_run.
  rewrite (standalone_loop_hits rec safe d _ Hne Hvalid _ d); cbn [w_heap w_conf];
    [|by rewrite lookup_insert_ne|by rewrite lookup_insert_eq].
  rewrite insert_insert_eq.
  rewrite bind_run. unfold get_conf at 1. cbn [w_conf].
  rewrite bind_run, (combinatorial_loop_run rec d); cbn [w_heap];
    [|by rewrite lookup_insert_ne].
  rewrite bind_run.
  rewrite (redact_loop_run rec safe d _ Hne) with (sd := after_standalone d (w_conf w));
    cbn [w_heap w_conf].
  - rewrite insert_insert_eq, ret_run.
    unfold rationale, running_total, sanitized, pending.
    by destruct (combo_log d _ _).
  - intros k Hk%elem_of_elements. by apply (pending_present d (w_conf w)).
  - by rewrite lookup_insert_ne.
  - by rewrite lookup_insert_eq.
Qed.

Lemma scan_raise (w : world) (rec : loc) (d : gmap string value)
    (pre post : list (string * Standalone.rule)) (bad : string * Standalone.rule) :
  w_heap w !! rec = Some d →
  standalone_pii_patterns (w_conf w) = (pre ++ bad :: post)%list →
  (∀ item, item ∈ pre → solo_hit d item = true →
           is_Some (assoc (Standalone.redactor item.2) _get_redactors)) →
  solo_hit d bad = true →
  assoc (Standalone.redactor bad.2) _get_redactors = None →
  scan rec w
  = (Raise (KeyError (Standalone.redactor bad.2)),
     World (w_conf w)
           (<[fresh (dom (w_heap w)) := fold_left (solo_redact d) pre d]> (w_heap w))).
Proof.
  intros Hrec Hitems Hpre Hhit Hbad. unfold scan.
  set (safe := fresh (dom (w_heap w))).
  assert (Hfresh : w_heap w !! safe = None).
  { apply not_elem_of_dom, is_fresh. }
  assert (Hne : rec ≠ safe) by congruence.
  rewrite bind_run. unfold dict_copy at 1. rewrite Hrec. fold safe.
  rewrite bind_run. unfold get_conf at 1. cbn [w_conf].
  rewrite bind_run, Hitems.
  rewrite (standalone_loop_raise rec safe d d _ pre post bad); cbn [w_heap w_conf];
    try done; [|by rewrite lookup_insert_ne|by rewrite lookup_insert_eq].
  by rewrite insert_insert_eq.
Qed.

(** X4: on a dict record [scan] either returns a result or raises KeyError;
    it raises exactly when some standalone rule applies to the record and
    names an unknown strategy, and the key of the error is the redactor of
    the first such rule.  The input record is intact in both cases. *)
Theorem scan_raises_only_key_error (w : world) (rec : loc) (d : gmap string value) :
  w_heap w !! rec = Some d →
  (hits_valid d (w_conf w)
   ∧ ∃ result w', scan rec w = (Ret result, w') ∧ w_heap w' !! rec = Some d)
  ∨ (∃ pre bad post w',
       standalone_pii_patterns (w_conf w) = (pre ++ bad :: post)%list
       ∧ (∀ item, item ∈ pre → solo_hit d item = true →
                  is_Some (assoc (Standalone.redactor item.2) _get_redactors))
       ∧ solo_hit d bad = true
       ∧ assoc (Standalone.redactor bad.2) _get_redactors = None
       ∧ scan rec w = (Raise (KeyError (Standalone.redactor bad.2)), w')
       ∧ w_heap w' !! rec = Some d).
Proof.
  intros Hrec.
  assert (Hne : rec ≠ fresh (dom (w_heap w))).
  { intros Heq. pose proof (is_fresh (dom (w_heap w))) as Hf.
    apply not_elem_of_dom in Hf. congruence. }
  destruct (first_unknown d (standalone_pii_patterns (w_conf w)))
    as [Hvalid|(pre & bad & post & Hitems & Hpre & Hhit & Hbad)].
  - left. split; [exact Hvalid|]. do 2 eexists.
    split; [by apply scan_run_hits|]. cbn [w_heap]. by rewrite lookup_insert_ne.
  - right. exists pre, bad, post. eexists. repeat (split; [done|]).
    split; [by apply (scan_raise w rec d pre post bad)|].
    cbn [w_heap]. by rewrite lookup_insert_ne.
Qed.

Lemma sample_bad_at : w_heap Sample2.w_bad !! Sample.rec = Some Sample.contact.
Proof. reflexivity. Qed.

Lemma sample_bad_hit : solo_hit Sample.contact ("email", Sample2.bad_rule) = true.
Proof. vm_compute. reflexivity. Qed.

Lemma scan_raises_only_key_error_witness :
  ∃ w', scan Sample.rec Sample2.w_bad = (Raise (KeyError "mask_mail"), w').
Proof.
  destruct (scan_raises_only_key_error Sample2.w_bad Sample.rec Sample.contact
              sample_bad_at)
    as [[Hvalid _]|(pre & bad & post & w' & Hitems & _ & Hhit & Hbad & Hrun & _)].
  - destruct (Hvalid ("email", Sample2.bad_rule)) as [fn Hfn].
    + right. left.
    + exact sample_bad_hit.
    + discriminate Hfn.
  - exists w'. rewrite Hrun.
    assert (Hin : bad ∈ standalone_pii_patterns (w_conf Sample2.w_bad)).
    { rewrite Hitems. apply elem_of_app. right. left. }
    apply elem_of_cons in Hin as [->|Hin]; [discriminate Hbad|].
    apply elem_of_cons in Hin as [->|Hin]; [reflexivity|].
    apply elem_of_nil in Hin. destruct Hin.
Defined.

(** ** Inverting a returned scan *)

Lemma scan_ret_inv (w w' : world) (rec : loc) (d : gmap string value)
    (result : loc * bool * f64 * string) :
  w_heap w !! rec = Some d →
  scan rec w = (Ret result, w') →
  hits_valid d (w_conf w)
  ∧ result = (fresh (dom (w_heap w)),
              F64.ltb F64.half (py_min1 (running_total d (w_conf w))),
              py_round2 (py_min1 (running_total d (w_conf w))),
              rationale d (w_conf w))
  ∧ w' = World (w_conf w)
               (<[fresh (dom (w_heap w)) := sanitized d (w_conf w)]> (w_heap w)).
Proof.
  intros Hrec Hrun.
  destruct (first_unknown d (standalone_pii_patterns (w_conf w)))
    as [Hvalid|(pre & bad & post & Hitems & Hpre & Hhit & Hbad)].
  - split; [exact Hvalid|]. rewrite (scan_run_hits w rec d Hrec Hvalid) in Hrun.
    by injection Hrun as <- <-.
  - rewrite (scan_raise w rec d pre post bad Hrec Hitems Hpre Hhit Hbad) in Hrun.
    discriminate Hrun.
Qed.

(** ** The log *)

Lemma solo_log_cons (d : gmap string value) (item : string * Standalone.rule)
    (items : list (string * Standalone.rule)) (l0 : list string) :
  solo_log d (item :: items) l0
  = solo_log d items (if solo_hit d item then (l0 ++ [solo_entry item.1])%list else l0).
Proof. reflexivity. Qed.

Lemma combo_log_cons (d : gmap string value) (item : string * Combinatorial.rule)
    (items : list (string * Combinatorial.rule)) (l0 : list string) :
  combo_log d (item :: items) l0
  = combo_log d items
      (if combo_hit d item.2 then (l0 ++ [combo_entry d item.2])%list else l0).
Proof. reflexivity. Qed.

Lemma solo_log_entries (d : gmap string value) (items : list (string * Standalone.rule))
    (l0 : list string) :
  solo_log d items l0 = (l0 ++ solo_entries d items)%list.
Proof.
  revert l0. induction items as [|item items IH]; intros l0.
  { cbn. by rewrite app_nil_r. }
  rewrite solo_log_cons, IH. unfold solo_entries. cbn [List.filter].
  destruct (solo_hit d item); [|done]. cbn [map]. by rewrite <- app_assoc.
Qed.

Lemma combo_log_entries (d : gmap string value)
    (items : list (string * Combinatorial.rule)) (l0 : list string) :
  combo_log d items l0 = (l0 ++ combo_entries d items)%list.
Proof.
  revert l0. induction items as [|item items IH]; intros l0.
  { cbn. by rewrite app_nil_r. }
  rewrite combo_log_cons, IH. unfold combo_entries. cbn [List.filter].
  destruct (combo_hit d item.2); [|done]. cbn [map]. by rewrite <- app_assoc.
Qed.

Lemma rationale_entries (d : gmap string value) (conf : Catalog) :
  rationale d conf
  = match (solo_entries d (standalone_pii_patterns conf)
           ++ combo_entries d (combinatorial_pii_sets conf))%list with
    | [] => "No PII detected"
    | log => Str.join ", " log
    end.
Proof.
  unfold rationale. rewrite combo_log_entries, solo_log_entries. cbn [app].
  by destruct (_ ++ _)%list.
Qed.

Lemma join_head (sep x : string) (rest : list string) (c : ascii) (t : string) :
  x = String c t → ∃ t', Str.join sep (x :: rest) = String c t'.
Proof.
  intros ->. unfold Str.join. destruct rest as [|y rest]; cbn [String.concat]; eauto.
Qed.

Lemma entries_head (d : gmap string value) (conf : Catalog) (x : string)
    (rest : list string) :
  (solo_entries d (standalone_pii_patterns conf)
   ++ combo_entries d (combinatorial_pii_sets conf))%list = x :: rest →
  ∃ t, x = String "f" t.
Proof.
  unfold solo_entries, combo_entries.
  destruct (List.filter (solo_hit d) _) as [|item items]; cbn [map app].
  - destruct (List.filter _ _) as [|item items]; cbn [map]; [done|].
    intros [= <- _]. eexists. reflexivity.
  - intros [= <- _]. eexists. reflexivity.
Qed.

Lemma filter_nil_iff {A} (f : A → bool) (l : list A) :
  List.filter f l = [] ↔ ∀ x, x ∈ l → f x = false.
Proof.
  induction l as [|x l IH]; cbn [List.filter].
  - split; [by intros _ ? ?%elem_of_nil | done].
  - destruct (f x) eqn:E.
    + split; [done|]. intros H. specialize (H x). rewrite E in H.
      discriminate H. left.
    + rewrite IH. split.
      * intros H y [->|Hy]%elem_of_cons; auto.
      * intros H y Hy. apply H. by right.
Qed.

Lemma entries_nil (d : gmap string value) (conf : Catalog) :
  (solo_entries d (standalone_pii_patterns conf)
   ++ combo_entries d (combinatorial_pii_sets conf))%list = []
  ↔ (∀ item, item ∈ standalone_pii_patterns conf → solo_hit d item = false)
    ∧ (∀ item, item ∈ combinatorial_pii_sets conf → combo_hit d item.2 = false).
Proof.
  unfold solo_entries, combo_entries. rewrite <- !filter_nil_iff. split.
  - intros [H1 H2]%app_eq_nil. split; by eapply map_eq_nil.
  - by intros [-> ->].
Qed.

(** ** Records no rule applies to *)

Lemma combo_score_no_hit (d : gmap string value)
    (items : list (string * Combinatorial.rule)) (s0 : f64) :
  (∀ item, item ∈ items → combo_hit d item.2 = false) → combo_score d items s0 = s0.
Proof.
  revert s0. induction items as [|item items IH]; intros s0 Hmiss; [done|].
  unfold combo_score. cbn [fold_left]. fold (combo_score d items).
  rewrite (Hmiss item) by left. apply IH. intros it Hit. apply Hmiss. by right.
Qed.

Lemma combo_pending_no_hit (d : gmap string value)
    (items : list (string * Combinatorial.rule)) (p0 : gset string) :
  (∀ item, item ∈ items → combo_hit d item.2 = false) → combo_pending d items p0 = p0.
Proof.
  revert p0. induction items as [|item items IH]; intros p0 Hmiss; [done|].
  rewrite combo_pending_cons, (Hmiss item) by left.
  apply IH. intros it Hit. apply Hmiss. by right.
Qed.

Lemma solo_fold_no_hit (d sd : gmap string value)
    (items : list (string * Standalone.rule)) :
  (∀ item, item ∈ items → solo_hit d item = false) →
  fold_left (solo_redact d) items sd = sd.
Proof.
  revert sd. induction items as [|item items IH]; intros sd Hmiss; [done|].
  cbn [fold_left]. rewrite solo_redact_miss by (apply Hmiss; left).
  apply IH. intros it Hit. apply Hmiss. by right.
Qed.

(** X5: when no standalone rule applies to the record and no combinatorial
    rule finds two of its keys, [scan] returns a copy equal to the record,
    the verdict False, a confidence of 0.0 and the reason "No PII detected". *)
Theorem scan_no_match (w : world) (rec : loc) (d : gmap string value) :
  w_heap w !! rec = Some d →
  (∀ k rule s, (k, rule) ∈ standalone_pii_patterns (w_conf w) →
               d !! k = Some (VStr s) →
               Re.fullmatch (Standalone.compiled rule) s = false) →
  (∀ item, item ∈ combinatorial_pii_sets (w_conf w) →
           (length (keys_found d (Combinatorial.keys item.2)) < 2)%nat) →
  ∃ safe confidence w',
    scan rec w = (Ret (safe, false, confidence, "No PII detected"), w')
    ∧ confidence = F64.zero
    ∧ w_heap w' !! safe = Some d.
Proof.
  intros Hrec Hsolo Hcombo.
  assert (Hs : ∀ item, item ∈ standalone_pii_patterns (w_conf w) →
                       solo_hit d item = false).
  { intros [k rule] Hin. apply not_true_is_false.
    intros (s & Hk & Hm)%solo_hit_spec. rewrite (Hsolo k rule s Hin Hk) in Hm.
    discriminate Hm. }
  assert (Hc : ∀ item, item ∈ combinatorial_pii_sets (w_conf w) →
                       combo_hit d item.2 = false).
  { intros item Hin. apply Nat.leb_gt. by apply Hcombo. }
  assert (Hvalid : hits_valid d (w_conf w)).
  { intros item Hin Hhit. rewrite (Hs item Hin) in Hhit. discriminate Hhit. }
  rewrite (scan_run_hits w rec d Hrec Hvalid).
  assert (Htotal : running_total d (w_conf w) = F64.zero).
  { unfold running_total. by rewrite solo_score_no_hit, combo_score_no_hit. }
  assert (Hsd : sanitized d (w_conf w) = d).
  { unfold sanitized, pending, after_standalone.
    rewrite combo_pending_no_hit, elements_empty by done. cbn [fold_left].
    by apply solo_fold_no_hit. }
  assert (Hreason : rationale d (w_conf w) = "No PII detected").
  { rewrite rationale_entries. by rewrite (proj2 (entries_nil d (w_conf w))). }
  rewrite Htotal, Hsd, Hreason. do 3 eexists. split; [reflexivity|].
  split; [reflexivity|]. cbn [w_heap]. by rewrite lookup_insert_eq.
Qed.

Lemma sample_plain_at : w_heap Sample2.w_plain !! Sample.rec = Some Sample2.plain.
Proof. reflexivity. Qed.

Lemma scan_no_match_witness :
  ∃ safe confidence w',
    scan Sample.rec Sample2.w_plain
    = (Ret (safe, false, confidence, "No PII detected"), w')
    ∧ confidence = F64.zero
    ∧ w_heap w' !! safe = Some Sample2.plain.
Proof.
  apply (scan_no_match Sample2.w_plain Sample.rec Sample2.plain sample_plain_at).
  - intros k rule s Hin Hk.
    apply elem_of_cons in Hin as [Hin|Hin];
      [injection Hin as -> ->; discriminate Hk|].
    apply elem_of_cons in Hin as [Hin|Hin];
      [injection Hin as -> ->; discriminate Hk|].
    apply elem_of_nil in Hin. destruct Hin.
  - intros item Hin.
    apply elem_of_cons in Hin as [->|Hin]; [vm_compute; lia|].
    apply elem_of_nil in Hin. destruct Hin.
Defined.

(** X6: the reason a scan returns is "No PII detected" exactly when no rule
    fired; a verdict of True therefore always comes with the list of
    findings. *)
Theorem verdict_has_rationale (w w' : world) (rec safe : loc) (d : gmap string value)
    (is_pii : bool) (confidence : f64) (reason : string) :
  w_heap w !! rec = Some d →
  scan rec w = (Ret (safe, is_pii, confidence, reason), w') →
  (reason = "No PII detected"
   ↔ (∀ item, item ∈ standalone_pii_patterns (w_conf w) → solo_hit d item = false)
     ∧ (∀ item, item ∈ combinatorial_pii_sets (w_conf w) →
                (length (keys_found d (Combinatorial.keys item.2)) < 2)%nat))
  ∧ (is_pii = true → reason ≠ "No PII detected").
Proof.
  intros Hrec Hrun.
  destruct (scan_ret_inv _ _ _ _ _ Hrec Hrun) as (_ & Hres & _).
  injection Hres as _ -> _ ->.
  assert (Hiff : rationale d (w_conf w) = "No PII detected"
                 ↔ (∀ item, item ∈ standalone_pii_patterns (w_conf w) →
                            solo_hit d item = false)
                   ∧ (∀ item, item ∈ combinatorial_pii_sets (w_conf w) →
                              combo_hit d item.2 = false)).
  { rewrite <- entries_nil, rationale_entries.
    destruct (_ ++ _)%list as [|x rest] eqn:Hlog; [done|].
    destruct (entries_head d (w_conf w) x rest Hlog) as [t Hx].
    destruct (join_head ", " x rest "f" t Hx) as [t' ->]. split; discriminate. }
  assert (Hlt : ∀ item : string * Combinatorial.rule,
            combo_hit d item.2 = false
            ↔ (length (keys_found d (Combinatorial.keys item.2)) < 2)%nat).
  { intros item. apply Nat.leb_gt. }
  split.
  - rewrite Hiff. split; intros [Hs Hc]; (split; [exact Hs|]);
      intros item Hin; apply Hlt, Hc, Hin.
  - intros Hpii Hreason. apply Hiff in Hreason as [Hs Hc].
    unfold running_total in Hpii.
    rewrite solo_score_no_hit, combo_score_no_hit in Hpii by done.
    vm_compute in Hpii. discriminate Hpii.
Qed.

Lemma verdict_has_rationale_witness :
  rationale Sample.contact Sample.catalog ≠ "No PII detected".
Proof.
  pose proof (scan_run Sample.w_contact Sample.rec Sample.contact
                sample_contact_at sample_valid) as Hrun.
  destruct (verdict_has_rationale _ _ _ _ _ _ _ _ sample_contact_at Hrun) as [_ H].
  apply H. vm_compute. reflexivity.
Defined.

(** X7: the reason lists the findings in order: the standalone rules that
    apply, in catalog order, then the combinatorial rules that apply, in
    catalog order, joined by ", ". *)
Theorem reason_lists_findings_in_order (w w' : world) (rec safe : loc)
    (d : gmap string value) (is_pii : bool) (confidence : f64) (reason : string) :
  w_heap w !! rec = Some d →
  scan rec w = (Ret (safe, is_pii, confidence, reason), w') →
  reason
  = match (map (λ item, "found solo pii [" +:+ item.1 +:+ "]")
             (List.filter (solo_hit d) (standalone_pii_patterns (w_conf w)))
           ++ map (λ item,
                     "found combo pii ["
                     +:+ Str.join "+" (keys_found d (Combinatorial.keys item.2))
                     +:+ "]")
                (List.filter
                   (λ item, (2 <=? length (keys_found d (Combinatorial.keys item.2)))%nat)
                   (combinatorial_pii_sets (w_conf w))))%list with
    | [] => "No PII detected"
    | log => Str.join ", " log
    end.
Proof.
  intros Hrec Hrun.
  destruct (scan_ret_inv _ _ _ _ _ Hrec Hrun) as (_ & Hres & _).
  injection Hres as _ _ _ ->. apply rationale_entries.
Qed.

Lemma reason_lists_findings_in_order_witness :
  rationale Sample.person Sample.catalog
  = "found solo pii [ssn], found combo pii [first_name+last_name+city]".
Proof.
  pose proof (scan_run Sample.w_person Sample.rec Sample.person
                sample_person_at sample_valid) as Hrun.
  eapply eq_trans;
    [exact (reason_lists_findings_in_order _ _ _ _ _ _ _ _ sample_person_at Hrun)|].
  vm_compute. reflexivity.
Defined.

(** ** What redaction stores *)

Section Stored.

Variable d : gmap string value.

Lemma input_or_text_insert (sd : gmap string value) (key s : string) :
  input_or_text d sd → input_or_text d (<[key := VStr s]> sd).
Proof.
  intros H k. destruct (decide (key = k)) as [->|Hne].
  - right. exists s. apply lookup_insert_eq.
  - rewrite lookup_insert_ne by done. apply H.
Qed.

Lemma input_or_text_solo (items : list (string * Standalone.rule))
    (sd : gmap string value) :
  input_or_text d sd → input_or_text d (fold_left (solo_redact d) items sd).
Proof.
  revert sd. induction items as [|item items IH]; intros sd H; [done|].
  cbn [fold_left]. apply IH. unfold solo_redact.
  destruct (d !! item.1); [|done]. destruct (solo_hit d item); [|done].
  by apply input_or_text_insert.
Qed.

Lemma input_or_text_placeholder (conf : Catalog) (ks : list string)
    (sd : gmap string value) :
  input_or_text d sd → input_or_text d (fold_left (placeholder_redact d conf) ks sd).
Proof.
  revert sd. induction ks as [|k ks IH]; intros sd H; [done|].
  cbn [fold_left]. apply IH. unfold placeholder_redact.
  destruct (redaction_placeholders conf !! k) as [mask|]; [|done].
  destruct (assoc mask _get_redactors).
  - destruct (d !! k); [|done]. by apply input_or_text_insert.
  - destruct (String.eqb mask ""); [done|]. by apply input_or_text_insert.
Qed.

Lemma input_or_text_sanitized (conf : Catalog) : input_or_text d (sanitized d conf).
Proof.
  unfold sanitized, after_standalone.
  apply input_or_text_placeholder, input_or_text_solo. intros k. by left.
Qed.

End Stored.

(** X9: in the sanitized record a scan returns, every field holds either
    its input value or a string: redaction never stores anything but text
    and never removes a value. *)
Theorem redaction_stores_text (w w' : world) (rec safe : loc) (d : gmap string value)
    (is_pii : bool) (confidence : f64) (reason : string) :
  w_heap w !! rec = Some d →
  scan rec w = (Ret (safe, is_pii, confidence, reason), w') →
  ∃ sd, w_heap w' !! safe = Some sd
        ∧ ∀ k, sd !! k = d !! k ∨ ∃ s, sd !! k = Some (VStr s).
Proof.
  intros Hrec Hrun.
  destruct (scan_ret_inv _ _ _ _ _ Hrec Hrun) as (_ & Hres & ->).
  injection Hres as -> _ _ _. exists (sanitized d (w_conf w)).
  split; [apply lookup_insert_eq | apply input_or_text_sanitized].
Qed.

Lemma redaction_stores_text_witness :
  ∃ sd, w_heap (scan Sample.rec Sample.w_person).2
          !! fresh (dom (w_heap Sample.w_person)) = Some sd
        ∧ ∀ k, sd !! k = Sample.person !! k ∨ ∃ s, sd !! k = Some (VStr s).
Proof.
  pose proof (scan_run Sample.w_person Sample.rec Sample.person
                sample_person_at sample_valid) as Hrun.
  rewrite Hrun.
  exact (redaction_stores_text _ _ _ _ _ _ _ _ sample_person_at Hrun).
Defined.

(** ** Scanning again *)

(** X10: scanning the same record a second time returns the same verdict,
    confidence and reason, in a second copy with the same contents at a
    different reference; the first copy is left as it was. *)
Theorem scan_repeatable (w w1 : world) (rec safe1 : loc) (d : gmap string value)
    (is_pii : bool) (confidence : f64) (reason : string) :
  w_heap w !! rec = Some d →
  scan rec w = (Ret (safe1, is_pii, confidence, reason), w1) →
  ∃ safe2 w2,
    scan rec w1 = (Ret (safe2, is_pii, confidence, reason), w2)
    ∧ safe2 ≠ safe1
    ∧ w_heap w2 !! safe1 = w_heap w1 !! safe1
    ∧ w_heap w2 !! safe2 = w_heap w1 !! safe1.
Proof.
  intros Hrec Hrun.
  destruct (scan_ret_inv _ _ _ _ _ Hrec Hrun) as (Hvalid & Hres & ->).
  injection Hres as -> -> -> ->.
  set (safe1 := fresh (dom (w_heap w))).
  set (w1 := World _ _).
  assert (Hne : rec ≠ safe1).
  { intros Heq. pose proof (is_fresh (dom (w_heap w))) as Hf.
    apply not_elem_of_dom in Hf. fold safe1 in Hf. congruence. }
  assert (Hrec1 : w_heap w1 !! rec = Some d).
  { subst w1. cbn [w_heap]. by rewrite lookup_insert_ne. }
  assert (Hne2 : fresh (dom (w_heap w1)) ≠ safe1).
  { intros Heq. pose proof (is_fresh (dom (w_heap w1))) as Hf.
    rewrite Heq in Hf. apply Hf, elem_of_dom. subst w1. cbn [w_heap].
    rewrite lookup_insert_eq. eauto. }
  exists (fresh (dom (w_heap w1))). eexists.
  split; [exact (scan_run_hits w1 rec d Hrec1 Hvalid)|]. split; [exact Hne2|].
  cbn [w_heap]. rewrite lookup_insert_ne by done. split; [done|].
  rewrite lookup_insert_eq. subst w1. cbn [w_heap w_conf].
  by rewrite lookup_insert_eq.
Qed.

Lemma scan_repeatable_witness :
  ∃ safe2 w2,
    scan Sample.rec (scan Sample.rec Sample.w_person).2
    = (Ret (safe2,
            F64.ltb F64.half (py_min1 (running_total Sample.person Sample.catalog)),
            py_round2 (py_min1 (running_total Sample.person Sample.catalog)),
            rationale Sample.person Sample.catalog), w2)
    ∧ safe2 ≠ fresh (dom (w_heap Sample.w_person)).
Proof.
  pose proof (scan_run Sample.w_person Sample.rec Sample.person
                sample_person_at sample_valid) as Hrun.
  destruct (scan_repeatable _ _ _ _ _ _ _ _ sample_person_at Hrun)
    as (safe2 & w2 & Hrun2 & Hne & _).
  exists safe2, w2. rewrite Hrun. split; [exact Hrun2 | exact Hne].
Defined.

(** ** Objects of the store *)

(** X11: on a dict record [scan] adds exactly one object to the store, the
    copy, and removes none, whether it returns or raises. *)
Theorem scan_allocates_one (w w' : world) (rec : loc) (d : gmap string value)
    (out : outcome (loc * bool * f64 * string)) :
  w_heap w !! rec = Some d →
  scan rec w = (out, w') →
  (fresh (dom (w_heap w)) ∉ dom (w_heap w))
  ∧ dom (w_heap w') = {[fresh (dom (w_heap w))]} ∪ dom (w_heap w).
Proof.
  intros Hrec Hrun. split; [apply is_fresh|].
  destruct (first_unknown d (standalone_pii_patterns (w_conf w)))
    as [Hvalid|(pre & bad & post & Hitems & Hpre & Hhit & Hbad)].
  - rewrite (scan_run_hits w rec d Hrec Hvalid) in Hrun.
    injection Hrun as _ <-. cbn [w_heap]. apply dom_insert_L.
  - rewrite (scan_raise w rec d pre post bad Hrec Hitems Hpre Hhit Hbad) in Hrun.
    injection Hrun as _ <-. cbn [w_heap]. apply dom_insert_L.
Qed.

Lemma scan_allocates_one_witness :
  dom (w_heap (scan Sample.rec Sample2.w_bad).2)
  = {[fresh (dom (w_heap Sample2.w_bad))]} ∪ dom (w_heap Sample2.w_bad).
Proof.
  exact (proj2 (scan_allocates_one Sample2.w_bad _ Sample.rec Sample.contact _
                  sample_bad_at (surjective_pairing _))).
Defined.

(** ** Repeated keys *)



(** ** What the verdict depends on *)

Section SameVerdict.

Variables d d' : gmap string value.
Hypothesis Hdom : dom d' = dom d.

Lemma combo_hit_dom (rule : Combinatorial.rule) : combo_hit d' rule = combo_hit d rule.
Proof. unfold combo_hit. by rewrite (keys_found_dom d d' Hdom). Qed.

Lemma combo_entry_dom (rule : Combinatorial.rule) :
  combo_entry d' rule = combo_entry d rule.
Proof. unfold combo_entry. by rewrite (keys_found_dom d d' Hdom). Qed.

Lemma combo_entries_dom (items : list (string * Combinatorial.rule)) :
  combo_entries d' items = combo_entries d items.
Proof.
  unfold combo_entries. induction items as [|item items IH]; [done|].
  cbn [List.filter]. rewrite combo_hit_dom.
  destruct (combo_hit d item.2); cbn [map]; by rewrite ?combo_entry_dom, IH.
Qed.

Lemma solo_score_hits (items : list (string * Standalone.rule)) (s0 : f64) :
  (∀ item, item ∈ items → solo_hit d' item = solo_hit d item) →
  solo_score d' items s0 = solo_score d items s0.
Proof.
  revert s0. induction items as [|item items IH]; intros s0 Hhits; [done|].
  unfold solo_score. cbn [fold_left]. fold (solo_score d items) (solo_score d' items).
  rewrite (Hhits item) by left. apply IH. intros it Hit. apply Hhits. by right.
Qed.

Lemma solo_entries_hits (items : list (string * Standalone.rule)) :
  (∀ item, item ∈ items → solo_hit d' item = solo_hit d item) →
  solo_entries d' items = solo_entries d items.
Proof.
  unfold solo_entries. induction items as [|item items IH]; intros Hhits; [done|].
  cbn [List.filter]. rewrite (Hhits item) by left.
  assert (IH' := IH (λ it Hit, Hhits it (list_elem_of_further _ _ _ Hit))).
  destruct (solo_hit d item); cbn [map]; by rewrite IH'.
Qed.

End SameVerdict.

(** X13: the verdict, the confidence and the reason depend on the record
    only through its field names and through which standalone rules apply:
    two records with the same field names and the same standalone matches get
    the same three results. *)
Theorem verdict_from_names_and_matches (w w1 : world) (rec1 rec2 safe1 : loc)
    (d1 d2 : gmap string value) (is_pii : bool) (confidence : f64) (reason : string) :
  w_heap w !! rec1 = Some d1 →
  w_heap w !! rec2 = Some d2 →
  dom d2 = dom d1 →
  (∀ item, item ∈ standalone_pii_patterns (w_conf w) →
           solo_hit d2 item = solo_hit d1 item) →
  scan rec1 w = (Ret (safe1, is_pii, confidence, reason), w1) →
  ∃ safe2 w2, scan rec2 w = (Ret (safe2, is_pii, confidence, reason), w2).
Proof.
  intros Hrec1 Hrec2 Hdom Hhits Hrun.
  destruct (scan_ret_inv _ _ _ _ _ Hrec1 Hrun) as (Hvalid & Hres & _).
  injection Hres as _ -> -> ->.
  assert (Hvalid2 : hits_valid d2 (w_conf w)).
  { intros item Hin Hhit. apply Hvalid; [done|]. by rewrite <- Hhits. }
  rewrite (scan_run_hits w rec2 d2 Hrec2 Hvalid2).
  assert (Htotal : running_total d2 (w_conf w) = running_total d1 (w_conf w)).
  { unfold running_total. rewrite (combo_score_dom d1 d2 Hdom).
    by rewrite (solo_score_hits d1 d2). }
  assert (Hreason : rationale d2 (w_conf w) = rationale d1 (w_conf w)).
  { rewrite !rationale_entries, (combo_entries_dom d1 d2 Hdom).
    by rewrite (solo_entries_hits d1 d2). }
  rewrite Htotal, Hreason. eauto.
Qed.

Lemma sample_pair_at :
  w_heap Sample2.w_pair !! Sample.rec = Some Sample.contact
  ∧ w_heap Sample2.w_pair !! Sample.copy = Some Sample2.other_contact.
Proof. split; reflexivity. Qed.

Lemma sample_pair_hits (item : string * Standalone.rule) :
  item ∈ standalone_pii_patterns Sample.catalog →
  solo_hit Sample2.other_contact item = solo_hit Sample.contact item.
Proof.
  revert item. apply Forall_forall. unfold Sample.catalog.
  cbn [standalone_pii_patterns].
  repeat (constructor; [vm_compute; reflexivity|]). constructor.
Qed.

Lemma verdict_from_names_and_matches_witness :
  ∃ safe2 w2,
    scan Sample.copy Sample2.w_pair
    = (Ret (safe2,
            F64.ltb F64.half (py_min1 (running_total Sample.contact Sample.catalog)),
            py_round2 (py_min1 (running_total Sample.contact Sample.catalog)),
            rationale Sample.contact Sample.catalog), w2).
Proof.
  eapply (verdict_from_names_and_matches Sample2.w_pair _ Sample.rec Sample.copy _
            Sample.contact Sample2.other_contact _ _ _
            (proj1 sample_pair_at) (proj2 sample_pair_at)).
  - reflexivity.
  - exact sample_pair_hits.
  - exact (scan_run Sample2.w_pair Sample.rec Sample.contact
             (proj1 sample_pair_at) sample_valid).
Defined.

(** ** The order of the redaction pass *)

Lemma placeholder_fold_perm (d : gmap string value) (conf : Catalog)
    (ks ks' : list string) (sd : gmap string value) :
  NoDup ks → ks ≡ₚ ks' →
  fold_left (placeholder_redact d conf) ks sd
  = fold_left (placeholder_redact d conf) ks' sd.
Proof.
  intros Hnd Hperm. assert (Hnd' : NoDup ks') by (by rewrite <- Hperm).
  apply map_eq. intros k. destruct (decide (k ∈ ks)) as [Hin|Hout].
  - rewrite !placeholder_fold_in; try done. by rewrite <- Hperm.
  - rewrite !placeholder_fold_notin; try done. by rewrite <- Hperm.
Qed.

(** X14: the redaction pass does not depend on the order in which the set
    of pending keys is iterated: over any two orderings of the same keys it
    ends in the same store. *)
Theorem redaction_order_irrelevant (w : world) (rec safe : loc)
    (d sd : gmap string value) (ks ks' : list string) :
  w_heap w !! rec = Some d →
  w_heap w !! safe = Some sd →
  rec ≠ safe →
  NoDup ks →
  ks ≡ₚ ks' →
  (∀ k, k ∈ ks → is_Some (d !! k)) →
  for_each (redact_body rec safe) tt ks w = for_each (redact_body rec safe) tt ks' w.
Proof.
  intros Hrec Hsafe Hne Hnd Hperm Hpresent.
  rewrite (redact_loop_run rec safe d ks Hne Hpresent w sd Hrec Hsafe).
  rewrite (redact_loop_run rec safe d ks' Hne) with (sd := sd); try done.
  - by rewrite (placeholder_fold_perm d (w_conf w) ks ks' sd Hnd Hperm).
  - intros k Hk. apply Hpresent. by rewrite Hperm.
Qed.

Lemma sample_copied_at :
  w_heap Sample.w_person_copied !! Sample.rec = Some Sample.person
  ∧ w_heap Sample.w_person_copied !! Sample.copy = Some Sample.person.
Proof. split; reflexivity. Qed.

Lemma sample_keys_present (k : string) :
  k ∈ ["city"; "first_name"; "last_name"] → is_Some (Sample.person !! k).
Proof.
  revert k. apply Forall_forall.
  repeat (constructor; [eexists; reflexivity|]). constructor.
Qed.

Lemma redaction_order_irrelevant_witness :
  for_each (redact_body Sample.rec Sample.copy) tt
    ["city"; "first_name"; "last_name"] Sample.w_person_copied
  = for_each (redact_body Sample.rec Sample.copy) tt
      ["last_name"; "city"; "first_name"] Sample.w_person_copied.
Proof.
  apply (redaction_order_irrelevant Sample.w_person_copied Sample.rec Sample.copy
           Sample.person Sample.person).
  - exact (proj1 sample_copied_at).
  - exact (proj2 sample_copied_at).
  - discriminate.
  - repeat (constructor; [rewrite ?elem_of_cons, elem_of_nil; intros H;
                          repeat (destruct H as [H|H]; [discriminate H|]);
                          exact H|]).
    constructor.
  - symmetry. apply (Permutation_cons_append ["city"; "first_name"] "last_name").
  - exact sample_keys_present.
Defined.

(** ** Flagged and not redacted *)

(** X15: a field of the pending set whose placeholder is missing or is the
    empty string, and which fires no standalone rule, is returned with its
    input value, although the reason names it. *)
Theorem pending_without_placeholder_kept (w w' : world) (rec safe : loc)
    (d : gmap string value) (is_pii : bool) (confidence : f64) (reason : string)
    (key : string) :
  w_heap w !! rec = Some d →
  scan rec w = (Ret (safe, is_pii, confidence, reason), w') →
  key ∈ pending d (w_conf w) →
  redaction_placeholders (w_conf w) !! key = None
  ∨ redaction_placeholders (w_conf w) !! key = Some "" →
  (∀ rule, (key, rule) ∈ standalone_pii_patterns (w_conf w) →
           solo_hit d (key, rule) = false) →
  ∃ sd v, w_heap w' !! safe = Some sd ∧ d !! key = Some v ∧ sd !! key = Some v.
Proof.
  intros Hrec Hrun Hkey Hmask Hsolo.
  destruct (scan_ret_inv _ _ _ _ _ Hrec Hrun) as (_ & Hres & ->).
  injection Hres as -> _ _ _.
  destruct (pending_present d (w_conf w) key Hkey) as [v Hv].
  exists (sanitized d (w_conf w)), v. split; [apply lookup_insert_eq|].
  split; [exact Hv|].
  rewrite sanitized_lookup_pending by done. unfold placeholder_redact.
  assert (Hafter : after_standalone d (w_conf w) !! key = Some v).
  { unfold after_standalone. by rewrite solo_fold_lookup. }
  destruct Hmask as [->| ->]; [exact Hafter|].
  cbn [assoc _get_redactors]. exact Hafter.
Qed.

Lemma pending_without_placeholder_kept_witness :
  ∃ sd v, w_heap (scan Sample.rec Sample.w_person).2
            !! fresh (dom (w_heap Sample.w_person)) = Some sd
          ∧ Sample.person !! "city" = Some v ∧ sd !! "city" = Some v.
Proof.
  pose proof (scan_run Sample.w_person Sample.rec Sample.person
                sample_person_at sample_valid) as Hrun.
  rewrite Hrun.
  apply (pending_without_placeholder_kept _ _ _ _ _ _ _ _ "city"
           sample_person_at Hrun).
  - apply sample_pending_elem. left.
  - right. reflexivity.
  - intros rule Hin.
    apply elem_of_cons in Hin as [Hin|Hin]; [discriminate Hin|].
    apply elem_of_cons in Hin as [Hin|Hin]; [discriminate Hin|].
    apply elem_of_nil in Hin. destruct Hin.
Defined.
